(** * RAG service: text normalizer, chunker, prompt assembler and upload gate

    A shallow embedding of [backend/rag-service/app/chunking.py],
    [rag.py] and the upload handler of [main.py].

    Python strings are sequences of Unicode code points; a code point is
    a natural number and a string is a list of them, so [len] is the list
    length.  Python integers are unbounded: sizes and bounds are in [Z]. *)

From Stdlib Require Import String Ascii.
From Stdlib Require DecimalString.
From Stdlib Require Import List ZArith NArith Bool Lia.
Import ListNotations.

Local Open Scope Z_scope.

(** ** Python strings *)

Module Py.

Definition char := N.
Definition str := list char.

(** A literal, written with Rocq's string notation. *)
Definition lit (s : string) : str :=
  map N_of_ascii (list_ascii_of_string s).

Definition len (s : str) : Z := Z.of_nat (length s).

(** Truth value of a string: non-empty. *)
Definition truthy (s : str) : bool :=
  match s with [] => false | _ :: _ => true end.

Definition NL : char := 10%N.
Definition CR : char := 13%N.
Definition SP : char := 32%N.
Definition TAB : char := 9%N.

(** [str.isspace] on one code point: the whitespace set that
    [str.strip()] without argument removes. *)
Definition isspace (c : char) : bool :=
  ((9 <=? c) && (c <=? 13) || (28 <=? c) && (c <=? 32)
   || (c =? 133) || (c =? 160) || (c =? 5760)
   || (8192 <=? c) && (c <=? 8202)
   || (c =? 8232) || (c =? 8233) || (c =? 8239) || (c =? 8287)
   || (c =? 12288))%N.

Fixpoint lstrip (s : str) : str :=
  match s with
  | [] => []
  | c :: t => if isspace c then lstrip t else s
  end.

Fixpoint rstrip (s : str) : str :=
  match s with
  | [] => []
  | c :: t =>
      match rstrip t with
      | [] => if isspace c then [] else [c]
      | r => c :: r
      end
  end.

Definition strip (s : str) : str := rstrip (lstrip s).

(** [s.replace(old, new)] for one-character [old] and [new]. *)
Definition replace_char (old new : char) (s : str) : str :=
  map (fun c => if (c =? old)%N then new else c) s.

(** [s[start:]] for any integer [start]: a negative index counts from
    the end, and the result is clamped to the string. *)
Definition slice_from (s : str) (start : Z) : str :=
  let n := len s in
  let i := if start <? 0 then Z.max 0 (start + n) else Z.min start n in
  skipn (Z.to_nat i) s.

(** [sep.join(parts)]. *)
Fixpoint join (sep : str) (parts : list str) : str :=
  match parts with
  | [] => []
  | [p] => p
  | p :: rest => p ++ sep ++ join sep rest
  end.

(** [s.startswith(p)] and [s.endswith(p)]. *)
Fixpoint startswith (s p : str) {struct p} : bool :=
  match p, s with
  | [], _ => true
  | _ :: _, [] => false
  | a :: p', b :: s' => (a =? b)%N && startswith s' p'
  end.

Definition endswith (s p : str) : bool := startswith (rev s) (rev p).

(** Case mapping is given on the ASCII letters; other code points are
    left as they are. *)
Definition is_upper (c : char) : bool := ((65 <=? c) && (c <=? 90))%N.
Definition is_lower (c : char) : bool := ((97 <=? c) && (c <=? 122))%N.
Definition lower_char (c : char) : char :=
  if is_upper c then (c + 32)%N else c.
Definition upper_char (c : char) : char :=
  if is_lower c then (c - 32)%N else c.

Definition lower (s : str) : str := map lower_char s.

Definition capitalize (s : str) : str :=
  match s with
  | [] => []
  | c :: t => upper_char c :: lower t
  end.

(** [x] occurs in [s] as a contiguous substring ([x in s]). *)
Definition contains (s x : str) : Prop :=
  exists pre post, s = pre ++ x ++ post.

End Py.

Import Py.
Arguments lit s%_string.

(** ** chunking.py *)

Module Chunking.

(** [re.sub(r"\n{3,}", "\n\n", text)]: the scan carries the number of
    newlines of the run being read; a run of three or more is written
    back as two, a shorter one unchanged. *)
Definition emit_newlines (run : nat) : str :=
  if (3 <=? run)%nat then [NL; NL] else repeat NL run.

Fixpoint sub_newlines (run : nat) (s : str) : str :=
  match s with
  | [] => emit_newlines run
  | c :: t =>
      if (c =? NL)%N then sub_newlines (S run) t
      else emit_newlines run ++ c :: sub_newlines 0 t
  end.

(** [re.sub(r"[ \t]+", " ", text)]: [in_run] tells that the previous
    character belonged to the run already replaced by one space. *)
Definition is_hspace (c : char) : bool := ((c =? SP) || (c =? TAB))%N.

Fixpoint sub_hspace (in_run : bool) (s : str) : str :=
  match s with
  | [] => []
  | c :: t =>
      if is_hspace c
      then (if in_run then sub_hspace true t else SP :: sub_hspace true t)
      else c :: sub_hspace false t
  end.

Definition normalize_text (text : str) : str :=
  let text := replace_char CR NL text in
  let text := sub_newlines 0 text in
  let text := sub_hspace false text in
  strip text.

(** [text.split("\n\n")]: leftmost, non-overlapping occurrences of the
    separator; always at least one piece. *)
Definition push (c : char) (pieces : list str) : list str :=
  match pieces with
  | [] => [[c]]
  | p :: rest => (c :: p) :: rest
  end.

Fixpoint split_nlnl (s : str) : list str :=
  match s with
  | [] => [[]]
  | c :: t =>
      match t with
      | d :: u =>
          if ((c =? NL) && (d =? NL))%N then [] :: split_nlnl u
          else push c (split_nlnl t)
      | [] => push c (split_nlnl t)
      end
  end.

Definition SEP : str := [NL; NL].

(** [[p.strip() for p in text.split("\n\n") if p.strip()]] *)
Definition paragraphs_of (text : str) : list str :=
  map strip (filter (fun p => truthy (strip p)) (split_nlnl text)).

(** Lines 49-52: add the paragraph to the current chunk. *)
Definition append_para (current_chunk para : str) : str :=
  if truthy current_chunk then current_chunk ++ SEP ++ para else para.

(** Lines 43-46: the buffer the next chunk starts from. *)
Definition seed_of (overlap : Z) (current_chunk : str) : str :=
  if (overlap >? 0) && (len current_chunk >? overlap)
  then slice_from current_chunk (- overlap)
  else [].

(** One iteration of the [for para in paragraphs] loop on the state
    [(chunks, current_chunk)]. *)
Definition loop_body (max_chunk_size overlap : Z)
    (st : list str * str) (para : str) : list str * str :=
  let '(chunks, current_chunk) := st in
  let '(chunks, current_chunk) :=
    if len current_chunk + len para + 2 >? max_chunk_size then
      if truthy current_chunk
      then (chunks ++ [strip current_chunk], seed_of overlap current_chunk)
      else (chunks, current_chunk)
    else (chunks, current_chunk) in
  (chunks, append_para current_chunk para).

Definition split_into_chunks (text : str) (max_chunk_size overlap : Z)
    : list str :=
  let text := normalize_text text in
  let paragraphs := paragraphs_of text in
  let '(chunks, current_chunk) :=
    fold_left (loop_body max_chunk_size overlap) paragraphs ([], []) in
  if truthy (strip current_chunk)
  then chunks ++ [strip current_chunk]
  else chunks.

End Chunking.

Import Chunking.

(** ** rag.py *)

Module Rag.

(** A chat message: the dictionary with the keys [role] and
    [content]. *)
Record ChatMessage := { role : str; content : str }.

(** [f"{role.capitalize()}: {msg['content']}\n"] *)
Definition render_message (msg : ChatMessage) : str :=
  capitalize (role msg) ++ lit ": " ++ content msg ++ [NL].

(** The loop [history_text += ...] over the chat history. *)
Definition render_history (chat_history : list ChatMessage) : str :=
  fold_left (fun history_text msg => history_text ++ render_message msg)
            chat_history [].

Definition INSTRUCTION : str :=
  lit "Answer ONLY using the provided context.".

(** The pieces of the template between its three holes. *)
Definition template_head : str :=
  [NL] ++ lit "You are a helpful customer-support chatbot." ++ [NL]
  ++ INSTRUCTION ++ [NL]
  ++ lit "If the answer is not in the context, say you don't know."
  ++ [NL; NL] ++ lit "Conversation history:" ++ [NL].
Definition template_context : str :=
  [NL; NL] ++ lit "Context documents:" ++ [NL].
Definition template_question : str :=
  [NL; NL] ++ lit "User question:" ++ [NL].
Definition template_tail : str :=
  [NL; NL] ++ lit "Answer:" ++ [NL].

Definition build_prompt (retrieved_chunks : list str)
    (chat_history : list ChatMessage) (user_question : str) : str :=
  let context := join [NL; NL] retrieved_chunks in
  let history_text := render_history chat_history in
  strip (template_head ++ history_text
         ++ template_context ++ context
         ++ template_question ++ user_question
         ++ template_tail).

Definition trim_prompt (prompt : str) (max_chars : Z) : str :=
  if len prompt <=? max_chars then prompt
  else slice_from prompt (- max_chars).

End Rag.

Import Rag.

(** ** main.py: the upload handler *)

Module Main.

Inductive Response :=
| Success (message chatbot_id object_name : str)
| HTTPException (status_code : Z) (detail : str).

Record UploadFile :=
  { filename : str; file : list N; content_type : str }.

Section Upload.

(** The object storage is an external service: its state and its
    [put_object] call, which returns the new state and the message
    of the exception it raised, if any. *)
Variable Storage : Type.
Variable put_object :
  Storage -> str -> str -> list N -> str -> Storage * option str.
Variable MINIO_BUCKET : str.

Definition upload_pdf (minio : Storage) (chatbot_id : str)
    (f : UploadFile) : Response * Storage :=
  if negb (endswith (lower (filename f)) (lit ".pdf")) then
    (HTTPException 400 (lit "Only PDF files are allowed"), minio)
  else
    let object_name := chatbot_id ++ lit "/" ++ filename f in
    match put_object minio MINIO_BUCKET object_name (file f)
                     (content_type f) with
    | (minio', Some e) => (HTTPException 500 e, minio')
    | (minio', None) =>
        (Success (lit "PDF uploaded successfully") chatbot_id
                 object_name, minio')
    end.

End Upload.

(** An in-memory object storage: the objects put so far, latest
    first, each with its bucket and key. *)
Definition MemStorage := list (str * str * list N).
Definition mem_put (st : MemStorage) (bucket key : str)
    (data : list N) (ctype : str) : MemStorage * option str :=
  ((bucket, key, data) :: st, None).

End Main.

Import Main.

(** ** Vocabulary of the properties *)

Module Props.

Definition all_space (w : str) : Prop := forallb isspace w = true.

(** A string that its own [strip] leaves unchanged and that is not
    empty: it starts and ends with a character that is not whitespace. *)
Definition trimmed (s : str) : Prop := s <> [] /\ strip s = s.

(** No three newlines in a row in [s], when [k] newlines come right
    before it. *)
Fixpoint nl_ok (k : nat) (s : str) : bool :=
  match s with
  | [] => true
  | c :: t =>
      if (c =? NL)%N then (k <? 2)%nat && nl_ok (S k) t else nl_ok 0 t
  end.

(** No two horizontal whitespace characters in a row in [s]; [prev]
    tells that the character right before it is one. *)
Fixpoint hs_ok (prev : bool) (s : str) : bool :=
  match s with
  | [] => true
  | c :: t =>
      if is_hspace c then negb prev && hs_ok true t else hs_ok false t
  end.

(** The chunker's buffer when it is emitted: not empty, and ending
    with a character that is not whitespace. *)
Definition good (b : str) : Prop := b <> [] /\ rstrip b = b.

(** The buffers the loop emits, in order, from the paragraphs still to
    read and the current buffer; each chunk is the [strip] of one. *)
Fixpoint buffers (m o : Z) (paras : list str) (cur : str) : list str :=
  match paras with
  | [] => if truthy (strip cur) then [cur] else []
  | p :: rest =>
      if (len cur + len p + 2 >? m) && truthy cur
      then cur :: buffers m o rest (append_para (seed_of o cur) p)
      else buffers m o rest (append_para cur p)
  end.

(** The buffers that a grouping of the paragraphs gives: the first
    buffer, then, for each further group, the seed taken from the buffer
    before it followed by the group's paragraphs. *)
Fixpoint raw_buffers (o : Z) (b : str) (groups : list (list str))
    : list str :=
  b :: match groups with
       | [] => []
       | g :: rest =>
           raw_buffers o (fold_left append_para g (seed_of o b)) rest
       end.

(** What a chunk shows of its seed: the seed without its leading
    whitespace, then the separator; nothing when no seed was taken. *)
Definition overlap_prefix (seed : str) : str :=
  if truthy seed then lstrip seed ++ SEP else [].

(** The chunks that a grouping of the paragraphs stands for: each chunk
    is its overlap prefix followed by the novel content, the paragraphs
    of its group joined by the separator.  [prev] is the buffer the
    previous chunk came from. *)
Fixpoint assemble (o : Z) (prev : str) (groups : list (list str))
    : list str :=
  match groups with
  | [] => []
  | g :: rest =>
      let seed := seed_of o prev in
      (overlap_prefix seed ++ join SEP g)
        :: assemble o (append_para seed (join SEP g)) rest
  end.

(** The size a buffer may have: within the bound, or one paragraph,
    alone or behind a seed of [o] characters and the separator. *)
Definition fits (m o : Z) (paras : list str) (b : str) : Prop :=
  len b <= m
  \/ exists p, In p paras
       /\ (b = p \/ (0 < o /\ exists seed, len seed = o /\ b = seed ++ SEP ++ p)).

(** The size bound as the specification words it: a chunk is within
    the bound unless it contains a paragraph that is itself longer. *)
Definition size_bound_as_stated (text : str) (m o : Z) : Prop :=
  forall c, In c (split_into_chunks text m o) ->
    len c <= m
    \/ exists p, In p (paragraphs_of (normalize_text text))
         /\ m < len p /\ contains c p.

(** The overlap property as the specification words it. *)
Definition overlap_as_stated (text : str) (m o : Z) : Prop :=
  forall i prev c,
    0 < o ->
    nth_error (split_into_chunks text m o) i = Some prev ->
    nth_error (split_into_chunks text m o) (S i) = Some c ->
    o < len prev ->
    firstn (Z.to_nat o) c = slice_from prev (- o).

(** Two paragraphs of 6 and 8 characters, for the bound 10 and the
    overlap 3. *)
Definition text_two_short : str :=
  lit "aaaaaa" ++ SEP ++ lit "bbbbbbbb".

(** Two paragraphs; the last five characters of the first start with a
    space. *)
Definition text_space_tail : str :=
  lit "aaaa bbbb" ++ SEP ++ lit "cccccccc".

(** Two paragraphs; the last five characters of the first are
    letters. *)
Definition text_letter_tail : str :=
  lit "aaaabbbbb" ++ SEP ++ lit "cccccccc".

(** A file name ends in [.pdf], whatever the case of the letters. *)
Definition pdf_suffix_ci (name : str) : bool :=
  match rev name with
  | c4 :: c3 :: c2 :: c1 :: _ =>
      ((c1 =? 46) && ((c2 =? 112) || (c2 =? 80))
       && ((c3 =? 100) || (c3 =? 68)) && ((c4 =? 102) || (c4 =? 70)))%N
  | _ => false
  end.

End Props.

Import Props.

(** ** Further vocabulary *)

Module TextProps.

(** The characters of a string that are not whitespace, in order. *)
Definition visible (s : str) : str :=
  filter (fun c => negb (isspace c)) s.

(** No two newlines in a row in [s], and no newline at its end. *)
Fixpoint sep_free (s : str) : bool :=
  match s with
  | [] => true
  | c :: t =>
      match t with
      | [] => negb (c =? NL)%N
      | d :: _ => negb ((c =? NL) && (d =? NL))%N && sep_free t
      end
  end.

(** No two newlines in a row in [s]. *)
Fixpoint nlnl_free (s : str) : bool :=
  match s with
  | [] => true
  | c :: t =>
      match t with
      | [] => true
      | d :: _ => negb ((c =? NL) && (d =? NL))%N && nlnl_free t
      end
  end.

(** [s] is the end of [t]. *)
Definition suffix_of (s t : str) : Prop := exists pre, t = pre ++ s.

End TextProps.

Import TextProps.

(** ** Effects: exceptions, JSON values and the outside world *)

Module Effects.

(** A decoded JSON value; a number is kept as its literal, no
    arithmetic is done on it.  The fields of an object have distinct
    keys. *)
#[warnings="-register-all"]
Inductive Json :=
| JNull
| JBool (b : bool)
| JNum (literal : str)
| JStr (s : str)
| JArr (items : list Json)
| JObj (fields : list (str * Json)).

(** The exceptions the code raises or lets through; [ServiceError] is
    any exception raised inside an external service or library. *)
Inductive exn :=
| IndexError
| KeyError (key : str)
| TypeError
| AttributeError
| RuntimeError (msg : str)
| HTTPError (status : Z)
| ServiceError (msg : str).

(** A computation on the outside world [W] that returns a value or
    raises; the world it leaves is kept in both cases. *)
Definition Eff (W A : Type) : Type := W -> (exn + A) * W.

Definition ret {W A : Type} (a : A) : Eff W A := fun w => (inr a, w).

Definition raise {W A : Type} (e : exn) : Eff W A := fun w => (inl e, w).

Definition lift {W A : Type} (r : exn + A) : Eff W A := fun w => (r, w).

Definition bind {W A B : Type} (m : Eff W A) (k : A -> Eff W B)
    : Eff W B :=
  fun w => match m w with
           | (inl e, w') => (inl e, w')
           | (inr a, w') => k a w'
           end.

Definition str_eqb (a b : str) : bool :=
  if list_eq_dec N.eq_dec a b then true else false.

Fixpoint lookup (key : str) (fields : list (str * Json)) : option Json :=
  match fields with
  | [] => None
  | (k, v) :: rest => if str_eqb k key then Some v else lookup key rest
  end.

(** [d[key]] with a string key. *)
Definition getitem_key (d : Json) (key : str) : exn + Json :=
  match d with
  | JObj fields =>
      match lookup key fields with
      | Some v => inr v
      | None => inl (KeyError key)
      end
  | _ => inl TypeError
  end.

(** [d.get(key)] of a dictionary: [None] when the key is missing. *)
Definition dict_get (d : Json) (key : str) : exn + Json :=
  match d with
  | JObj fields =>
      match lookup key fields with
      | Some v => inr v
      | None => inr JNull
      end
  | _ => inl AttributeError
  end.

(** [x[0]]. *)
Definition getitem_first (x : Json) : exn + Json :=
  match x with
  | JArr items =>
      match items with
      | v :: _ => inr v
      | [] => inl IndexError
      end
  | JStr s =>
      match s with
      | c :: _ => inr (JStr [c])
      | [] => inl IndexError
      end
  | JObj _ => inl (KeyError (lit "0"))
  | _ => inl TypeError
  end.

(** [len(x)]. *)
Definition py_len (x : Json) : exn + Z :=
  match x with
  | JArr items => inr (Z.of_nat (length items))
  | JStr s => inr (len s)
  | JObj fields => inr (Z.of_nat (length fields))
  | _ => inl TypeError
  end.

(** [x[:n]] for a natural [n]. *)
Definition py_prefix (n : nat) (x : Json) : exn + Json :=
  match x with
  | JArr items => inr (JArr (firstn n items))
  | JStr s => inr (JStr (firstn n s))
  | _ => inl TypeError
  end.

(** [str(n)] for an integer. *)
Definition str_of_int (n : Z) : str :=
  lit (DecimalString.NilZero.string_of_int (Z.to_int n)).

(** An HTTP response of the [requests] library: [json] is what
    [response.json()] returns or raises. *)
Record Response :=
  { status_code : Z; text : str; json : exn + Json }.

(** [response.raise_for_status()] *)
Definition raise_for_status {W : Type} (response : Response) : Eff W unit :=
  if (400 <=? status_code response) && (status_code response <? 600)
  then raise (HTTPError (status_code response))
  else ret tt.

End Effects.

Import Effects.

Notation "x <- m ;; k" := (bind m (fun x => k))
  (at level 61, m at next level, right associativity).

(** ** The services: embeddings.py, vector_store.py, ocr.py, rag.py
    and the endpoints of main.py *)

Module Service.

Record Payload :=
  { p_chatbot_id : str; p_filename : str; p_text : str }.

Record Point := { id : Z; vector : Json; payload : Payload }.

(** A search hit of the vector index; its payload is a dictionary or
    [None]. *)
Record Hit := { hit_payload : Json; hit_score : Json }.

(** An entry of the list [search_similar_chunks] returns. *)
Record Source := { s_text : Json; s_score : Json; s_filename : Json }.

Inductive Distance := COSINE.

Definition OLLAMA_URL : str := lit "http://ollama:11434".
Definition EMBED_MODEL : str := lit "nomic-embed-text".
Definition COLLECTION_PREFIX : str := lit "chatbot_".

Definition get_collection_name (chatbot_id : str) : str :=
  COLLECTION_PREFIX ++ chatbot_id.

(** [enumerate(l)] *)
Definition enumerate {A : Type} (l : list A) : list (Z * A) :=
  combine (map Z.of_nat (seq 0 (length l))) l.

(** The loop of [store_embeddings] that builds the points. *)
Definition make_points (chatbot_id filename : str)
    (embeddings : list Json) (chunks : list str) : list Point :=
  fold_left
    (fun points '(idx, (vector, text)) =>
       points ++ [{| id := idx; vector := vector;
                     payload := {| p_chatbot_id := chatbot_id;
                                   p_filename := filename;
                                   p_text := text |} |}])
    (enumerate (combine embeddings chunks)) [].

(** The dictionary built for one hit. *)
Definition source_of (hit : Hit) : exn + Source :=
  match getitem_key (hit_payload hit) (lit "text") with
  | inl e => inl e
  | inr t =>
      match dict_get (hit_payload hit) (lit "filename") with
      | inl e => inl e
      | inr f => inr {| s_text := t; s_score := hit_score hit;
                        s_filename := f |}
      end
  end.

(** A list comprehension whose body may raise. *)
Fixpoint comprehension {A B : Type} (f : A -> exn + B) (l : list A)
    : exn + list B :=
  match l with
  | [] => inr []
  | a :: rest =>
      match f a with
      | inl e => inl e
      | inr b =>
          match comprehension f rest with
          | inl e => inl e
          | inr bs => inr (b :: bs)
          end
      end
  end.


Definition GROQ_URL : str :=
  lit "https://api.groq.com/openai/v1/chat/completions".

(** The JSON body [ask_llm] posts. *)
Definition groq_body (trimmed_prompt : str) : Json :=
  JObj [(lit "model", JStr (lit "llama-3.1-8b-instant"));
        (lit "messages",
         JArr [JObj [(lit "role", JStr (lit "system"));
                     (lit "content",
                      JStr (lit "You are a helpful assistant. Answer strictly using the provided context."))];
               JObj [(lit "role", JStr (lit "user"));
                     (lit "content", JStr trimmed_prompt)]]);
        (lit "temperature", JNum (lit "0.2"));
        (lit "max_tokens", JNum (lit "512"))].

Definition groq_headers (key : str) : list (str * str) :=
  [(lit "Authorization", lit "Bearer " ++ key);
   (lit "Content-Type", lit "application/json")].

(** The results of the endpoints. *)
Record OcrResult :=
  { ocr_chatbot_id : str; ocr_filename : str;
    extracted_text_preview : str; total_characters : Z }.

Record ChunkResult :=
  { chunk_chatbot_id : str; chunk_filename : str;
    chunk_total : Z; chunks_preview : list str }.

Record EmbedResult :=
  { embed_total : Z; embedding_dim : Z; embedding_preview : Json }.

Record ProcessResult :=
  { process_message : str; process_chatbot_id : str;
    process_filename : str; process_total : Z }.


Section World.

(** The outside world and the calls into it. *)
Variable W : Type.
Variable Image : Type.

(** [requests.post(url, json=body, timeout=t)] to the embedding
    service. *)
Variable ollama_post : str -> Json -> Z -> Eff W Response.

(** The client of the vector index: the names of its collections,
    [create_collection], [upsert] and [search]. *)
Variable get_collections : Eff W (list str).
Variable create_collection : str -> Z -> Distance -> Eff W unit.
Variable upsert : str -> list Point -> Eff W unit.
Variable search : str -> Json -> Z -> Eff W (list Hit).

(** The object storage read and the two OCR libraries. *)
Variable get_object : str -> str -> Eff W (list N).
Variable convert_from_bytes : list N -> Eff W (list Image).
Variable image_to_string : Image -> Eff W str.
Variable MINIO_BUCKET : str.

(** [os.getenv("GROQ_API_KEY")] and the post to the language model. *)
Variable GROQ_API_KEY : option str.
Variable groq_post : str -> list (str * str) -> Json -> Z -> Eff W Response.

(** *** embeddings.py *)

Fixpoint embed_loop (texts : list str) (embeddings : list Json)
    : Eff W (list Json) :=
  match texts with
  | [] => ret embeddings
  | text :: rest =>
      response <- ollama_post (OLLAMA_URL ++ lit "/api/embeddings")
                    (JObj [(lit "model", JStr EMBED_MODEL);
                           (lit "prompt", JStr text)]) 60 ;;
      _ <- raise_for_status response ;;
      data <- lift (json response) ;;
      embedding <- lift (getitem_key data (lit "embedding")) ;;
      embed_loop rest (embeddings ++ [embedding])
  end.

Definition embed_texts (texts : list str) : Eff W (list Json) :=
  embed_loop texts [].

(** *** vector_store.py *)

Definition ensure_collection (collection_name : str) (vector_size : Z)
    : Eff W unit :=
  collections <- get_collections ;;
  if negb (existsb (fun c => str_eqb c collection_name) collections)
  then create_collection collection_name vector_size COSINE
  else ret tt.

Definition store_embeddings (chatbot_id : str) (embeddings : list Json)
    (chunks : list str) (filename : str) : Eff W unit :=
  let collection_name := get_collection_name chatbot_id in
  first <- lift (getitem_first (JArr embeddings)) ;;
  size <- lift (py_len first) ;;
  _ <- ensure_collection collection_name size ;;
  upsert collection_name (make_points chatbot_id filename embeddings chunks).

Definition search_similar_chunks (chatbot_id : str) (query_vector : Json)
    (limit : Z) : Eff W (list Source) :=
  let collection_name := get_collection_name chatbot_id in
  results <- search collection_name query_vector limit ;;
  lift (comprehension source_of results).

(** *** ocr.py *)

Fixpoint ocr_loop (images : list Image) (all_text : list str)
    : Eff W (list str) :=
  match images with
  | [] => ret all_text
  | image :: rest =>
      text <- image_to_string image ;;
      ocr_loop rest (if truthy text then all_text ++ [text] else all_text)
  end.

Definition extract_text_from_pdf (bucket_name object_name : str)
    : Eff W str :=
  pdf_bytes <- get_object bucket_name object_name ;;
  images <- convert_from_bytes pdf_bytes ;;
  all_text <- ocr_loop images [] ;;
  ret (join [NL] all_text).

(** *** rag.py: ask_llm *)

Definition key_set (key : option str) : bool :=
  match key with
  | Some k => truthy k
  | None => false
  end.

Definition ask_llm (prompt : str) : Eff W Json :=
  match GROQ_API_KEY with
  | Some key =>
      if truthy key then
        let trimmed_prompt := trim_prompt prompt 12000 in
        response <- groq_post GROQ_URL (groq_headers key)
                      (groq_body trimmed_prompt) 120 ;;
        if negb (status_code response =? 200)
        then raise (RuntimeError
                      (lit "Groq error " ++ str_of_int (status_code response)
                       ++ lit ": " ++ text response))
        else
          data <- lift (json response) ;;
          choices <- lift (getitem_key data (lit "choices")) ;;
          choice <- lift (getitem_first choices) ;;
          message <- lift (getitem_key choice (lit "message")) ;;
          lift (getitem_key message (lit "content"))
      else raise (RuntimeError (lit "GROQ_API_KEY is not set"))
  | None => raise (RuntimeError (lit "GROQ_API_KEY is not set"))
  end.

(** *** main.py: the endpoints after the upload *)

Definition ocr_document (chatbot_id filename : str) : Eff W OcrResult :=
  let object_name := chatbot_id ++ lit "/" ++ filename in
  text <- extract_text_from_pdf MINIO_BUCKET object_name ;;
  ret {| ocr_chatbot_id := chatbot_id; ocr_filename := filename;
         extracted_text_preview := firstn 1000 text;
         total_characters := len text |}.

Definition chunk_document (chatbot_id filename : str)
    : Eff W ChunkResult :=
  let object_name := chatbot_id ++ lit "/" ++ filename in
  text <- extract_text_from_pdf MINIO_BUCKET object_name ;;
  let chunks := split_into_chunks text 800 200 in
  ret {| chunk_chatbot_id := chatbot_id; chunk_filename := filename;
         chunk_total := Z.of_nat (length chunks);
         chunks_preview := firstn 3 chunks |}.

(** The second definition of [embed_document], the one that is bound
    to the route. *)
Definition embed_document (chatbot_id filename : str)
    : Eff W EmbedResult :=
  let object_name := chatbot_id ++ lit "/" ++ filename in
  text <- extract_text_from_pdf MINIO_BUCKET object_name ;;
  let chunks := split_into_chunks text 800 200 in
  embeddings <- embed_texts chunks ;;
  dim <- lift (match embeddings with
               | first :: _ => py_len first
               | [] => inr 0
               end) ;;
  preview <- lift (match embeddings with
                   | first :: _ => py_prefix 10 first
                   | [] => inr (JArr [])
                   end) ;;
  ret {| embed_total := Z.of_nat (length chunks);
         embedding_dim := dim; embedding_preview := preview |}.

Definition process_document (chatbot_id filename : str)
    : Eff W ProcessResult :=
  let object_name := chatbot_id ++ lit "/" ++ filename in
  text <- extract_text_from_pdf MINIO_BUCKET object_name ;;
  let chunks := split_into_chunks text 800 200 in
  embeddings <- embed_texts chunks ;;
  _ <- store_embeddings chatbot_id embeddings chunks filename ;;
  ret {| process_message :=
           lit "Document processed and stored in Qdrant";
         process_chatbot_id := chatbot_id; process_filename := filename;
         process_total := Z.of_nat (length chunks) |}.


End World.

End Service.

Import Service.

(** ** Vocabulary of the services *)

Module ServiceProps.

(** What one round of the embedding loop asks and reads. *)
Definition embed_one {W : Type}
    (ollama_post : str -> Json -> Z -> Eff W Response) (text : str)
    : Eff W Json :=
  response <- ollama_post (OLLAMA_URL ++ lit "/api/embeddings")
                (JObj [(lit "model", JStr EMBED_MODEL);
                       (lit "prompt", JStr text)]) 60 ;;
  _ <- raise_for_status response ;;
  data <- lift (json response) ;;
  lift (getitem_key data (lit "embedding")).

(** Running two computations one after the other and joining the lists
    they return. *)
Definition then_append {W A : Type} (m1 m2 : Eff W (list A))
    : Eff W (list A) :=
  a <- m1 ;; b <- m2 ;; ret (a ++ b).

(** Running [f] on each element in order and collecting the results;
    the first failure ends the run. *)
Fixpoint each {W A B : Type} (f : A -> Eff W B) (l : list A)
    : Eff W (list B) :=
  match l with
  | [] => ret []
  | a :: rest => b <- f a ;; bs <- each f rest ;; ret (b :: bs)
  end.

(** The value of a key in a payload, [None] when the payload is no
    dictionary or has no such key. *)
Definition field (payload : Json) (key : str) : Json :=
  match payload with
  | JObj fields =>
      match lookup key fields with
      | Some v => v
      | None => JNull
      end
  | _ => JNull
  end.

(** A hit whose payload is a dictionary with the key [text]. *)
Definition has_text (hit : Hit) : bool :=
  match hit_payload hit with
  | JObj fields =>
      match lookup (lit "text") fields with
      | Some _ => true
      | None => false
      end
  | _ => false
  end.

(** What reading the text of a hit without one raises. *)
Definition missing_text (hit : Hit) : exn :=
  match hit_payload hit with
  | JObj _ => KeyError (lit "text")
  | _ => TypeError
  end.

(** The entry for a hit: its text, score and file name, [None] for a
    file name that is missing. *)
Definition to_source (hit : Hit) : Source :=
  {| s_text := field (hit_payload hit) (lit "text");
     s_score := hit_score hit;
     s_filename := field (hit_payload hit) (lit "filename") |}.

(** The path [data["choices"][0]["message"]["content"]]. *)
Definition first_choice_content (data : Json) : exn + Json :=
  match getitem_key data (lit "choices") with
  | inl e => inl e
  | inr choices =>
      match getitem_first choices with
      | inl e => inl e
      | inr choice =>
          match getitem_key choice (lit "message") with
          | inl e => inl e
          | inr message => getitem_key message (lit "content")
          end
      end
  end.

(** A string without the character [/]. *)
Definition no_slash (s : str) : Prop := ~ In 47%N s.

(** A world that only records the bodies posted to it. *)
Definition Log : Type := list Json.

Definition ollama_fixed (url : str) (body : Json) (timeout : Z)
    : Eff Log Response :=
  fun w => (inr {| status_code := 200; text := [];
                   json := inr (JObj [(lit "embedding",
                                       JArr [JNum (lit "1")])]) |},
            w ++ [body]).

Definition groq_fixed (url : str) (headers : list (str * str))
    (body : Json) (timeout : Z) : Eff Log Response :=
  fun w => (inr {| status_code := 200; text := [];
                   json := inr (JObj [(lit "choices",
                     JArr [JObj [(lit "message",
                       JObj [(lit "content", JStr (lit "hello"))])]])]) |},
            w ++ [body]).


(** An object storage and an OCR that find one page holding two
    spaces. *)
Definition get_object_fixed (bucket key : str) : Eff Log (list N) :=
  ret [37%N].
Definition convert_fixed (pdf : list N) : Eff Log (list unit) := ret [tt].
Definition ocr_blank (image : unit) : Eff Log str := ret (lit "  ").

End ServiceProps.

Import ServiceProps.

(** * Facts about strings *)

Section StripFacts.

Lemma lstrip_split (s : str) :
  exists w, s = w ++ lstrip s /\ all_space w.
Proof.
  induction s as [|c t IH]; simpl.
  - exists []; split; reflexivity.
  - destruct (isspace c) eqn:Hc.
    + destruct IH as (w & Hw & Hs).
      exists (c :: w); split.
      * simpl; f_equal; exact Hw.
      * unfold all_space; simpl; rewrite Hc; exact Hs.
    + exists []; split; reflexivity.
Qed.

Lemma lstrip_head (s : str) c t : lstrip s = c :: t -> isspace c = false.
Proof.
  induction s as [|a u IH]; simpl; [discriminate|].
  destruct (isspace a) eqn:Ha; auto.
  intros E; injection E as -> _; exact Ha.
Qed.

Lemma lstrip_fix (c : char) t : isspace c = false -> lstrip (c :: t) = c :: t.
Proof. intros H; simpl; rewrite H; reflexivity. Qed.

Lemma lstrip_idem (s : str) : lstrip (lstrip s) = lstrip s.
Proof.
  destruct (lstrip s) as [|c t] eqn:E; [reflexivity|].
  apply lstrip_fix, (lstrip_head _ _ _ E).
Qed.

Lemma lstrip_app (a b : str) :
  lstrip a <> [] -> lstrip (a ++ b) = lstrip a ++ b.
Proof.
  induction a as [|c t IH]; simpl; [congruence|].
  destruct (isspace c); auto.
Qed.

Lemma lstrip_all_space (w s : str) : all_space w -> lstrip (w ++ s) = lstrip s.
Proof.
  unfold all_space; induction w as [|c t IH]; simpl; [reflexivity|].
  intros H; apply andb_prop in H as [Hc Ht]; rewrite Hc; auto.
Qed.

Lemma rstrip_cons (c : char) (t : str) :
  rstrip t <> [] -> rstrip (c :: t) = c :: rstrip t.
Proof. simpl; destruct (rstrip t); congruence. Qed.

Lemma rstrip_app (a b : str) :
  rstrip b <> [] -> rstrip (a ++ b) = a ++ rstrip b.
Proof.
  intros Hb; induction a as [|c t IH]; [reflexivity|].
  change ((c :: t) ++ b) with (c :: (t ++ b)).
  rewrite rstrip_cons; rewrite IH; [reflexivity|].
  destruct t; simpl; [exact Hb | discriminate].
Qed.

Lemma rstrip_all_space (w : str) : all_space w -> rstrip w = [].
Proof.
  unfold all_space; induction w as [|c t IH]; simpl; [reflexivity|].
  intros H; apply andb_prop in H as [Hc Ht].
  rewrite (IH Ht), Hc; reflexivity.
Qed.

Lemma rstrip_app_space (a w : str) : all_space w -> rstrip (a ++ w) = rstrip a.
Proof.
  intros Hw; induction a as [|c t IH]; simpl.
  - apply rstrip_all_space, Hw.
  - rewrite IH; reflexivity.
Qed.

Lemma rstrip_split (s : str) :
  exists w, s = rstrip s ++ w /\ all_space w.
Proof.
  induction s as [|c t (w & Hw & Hs)]; simpl.
  - exists []; split; reflexivity.
  - destruct (rstrip t) as [|d r] eqn:E.
    + destruct (isspace c) eqn:Hc.
      * exists (c :: w); split.
        -- simpl in Hw; rewrite <- Hw; reflexivity.
        -- unfold all_space; simpl; rewrite Hc; exact Hs.
      * exists w; split; [simpl in *; congruence | exact Hs].
    + exists w; split; [simpl in *; congruence | exact Hs].
Qed.

Lemma rstrip_last (s t : str) c : rstrip s = t ++ [c] -> isspace c = false.
Proof.
  revert t; induction s as [|a u IH]; simpl; intros t.
  - destruct t; discriminate.
  - destruct (rstrip u) as [|d r] eqn:E.
    + destruct (isspace a) eqn:Ha.
      * destruct t; discriminate.
      * destruct t as [|x [|y t]]; simpl; try discriminate.
        intros H; injection H as ->; exact Ha.
    + destruct t as [|x t]; simpl.
      * discriminate.
      * intros H; injection H as _ H. apply (IH t H).
Qed.

Lemma rstrip_idem (s : str) : rstrip (rstrip s) = rstrip s.
Proof.
  induction s as [|c t IH]; simpl; [reflexivity|].
  destruct (rstrip t) as [|d r] eqn:E.
  - destruct (isspace c) eqn:Hc; simpl; rewrite ?Hc; reflexivity.
  - rewrite rstrip_cons; rewrite IH; [reflexivity | discriminate].
Qed.

Lemma rstrip_keeps_head (s : str) : lstrip s = s -> lstrip (rstrip s) = rstrip s.
Proof.
  destruct s as [|c t]; [reflexivity|].
  intros H. assert (Hc : isspace c = false) by (apply (lstrip_head _ _ _ H)).
  simpl. destruct (rstrip t); [rewrite Hc|]; apply lstrip_fix, Hc.
Qed.

Lemma strip_idem (s : str) : strip (strip s) = strip s.
Proof.
  unfold strip.
  rewrite (rstrip_keeps_head (lstrip s) (lstrip_idem s)).
  apply rstrip_idem.
Qed.

Lemma strip_all_space (w : str) : all_space w -> strip w = [].
Proof.
  intros H; unfold strip.
  apply rstrip_all_space.
  destruct (lstrip_split w) as (v & Hv & _).
  unfold all_space in *. rewrite Hv in H at 1.
  rewrite forallb_app in H. apply andb_prop in H as [_ H]; exact H.
Qed.

Lemma trimmed_lstrip (s : str) : strip s = s -> lstrip s = s.
Proof.
  intros H. rewrite <- H at 1. unfold strip.
  rewrite (rstrip_keeps_head _ (lstrip_idem s)). exact H.
Qed.

Lemma trimmed_rstrip (s : str) : strip s = s -> rstrip s = s.
Proof.
  intros H. rewrite <- H at 1. unfold strip. rewrite rstrip_idem. exact H.
Qed.

Lemma strip_trimmed (s : str) : strip s <> [] -> trimmed (strip s).
Proof. intros H; split; [exact H | apply strip_idem]. Qed.

Lemma trimmed_first (s : str) c t :
  strip s = s -> s = c :: t -> isspace c = false.
Proof.
  intros H E. apply trimmed_lstrip in H. rewrite E in H.
  apply (lstrip_head _ _ _ H).
Qed.

Lemma trimmed_final (s : str) t c :
  strip s = s -> s = t ++ [c] -> isspace c = false.
Proof.
  intros H E. apply trimmed_rstrip in H. rewrite E in H.
  apply (rstrip_last _ _ _ H).
Qed.

End StripFacts.

(** * The normalizer *)

Section NormalizeFacts.

Lemma nl_ok_mono (s : str) : forall k k',
  (k' <= k)%nat -> nl_ok k s = true -> nl_ok k' s = true.
Proof.
  induction s as [|c t IH]; simpl; intros k k' Hk; [reflexivity|].
  destruct (c =? NL)%N; [|auto].
  intros H; apply andb_prop in H as [H1 H2].
  apply Nat.ltb_lt in H1.
  apply andb_true_intro; split.
  - apply Nat.ltb_lt; lia.
  - apply (IH (S k)); [lia | exact H2].
Qed.

Lemma nl_ok_app_l (a b : str) : forall k,
  nl_ok k (a ++ b) = true -> nl_ok k a = true.
Proof.
  induction a as [|c t IH]; simpl; intros k; [reflexivity|].
  destruct (c =? NL)%N; [|auto].
  intros H; apply andb_prop in H as [H1 H2].
  rewrite H1; simpl; auto.
Qed.

Lemma nl_ok_app_r (a b : str) : forall k,
  nl_ok k (a ++ b) = true -> nl_ok 0 b = true.
Proof.
  induction a as [|c t IH]; simpl; intros k.
  - apply nl_ok_mono; lia.
  - destruct (c =? NL)%N; [|apply IH].
    intros H; apply andb_prop in H as [_ H]; eauto.
Qed.

Lemma nl_ok_repeat (k n : nat) (s : str) :
  (k + n <= 2)%nat -> nl_ok (k + n) s = true ->
  nl_ok k (repeat NL n ++ s) = true.
Proof.
  revert k; induction n as [|n IH]; intros k Hk; simpl.
  - rewrite Nat.add_0_r; auto.
  - intros H. apply andb_true_intro; split; [apply Nat.ltb_lt; lia|].
    apply IH; [lia|]. replace (S k + n)%nat with (k + S n)%nat by lia.
    exact H.
Qed.

Lemma nl_ok_emit (run : nat) (c : char) (s : str) :
  (c =? NL)%N = false -> nl_ok 0 s = true ->
  nl_ok 0 (emit_newlines run ++ c :: s) = true.
Proof.
  intros Hc Hs; unfold emit_newlines.
  destruct (3 <=? run)%nat eqn:E.
  - simpl. rewrite Hc. exact Hs.
  - apply Nat.leb_gt in E.
    apply (nl_ok_repeat 0 run); [lia|]. simpl.
    destruct run as [|[|[|r]]]; simpl; rewrite ?Hc; try exact Hs; lia.
Qed.

Lemma nl_ok_emit_end (run : nat) : nl_ok 0 (emit_newlines run) = true.
Proof.
  unfold emit_newlines. destruct (3 <=? run)%nat eqn:E; [reflexivity|].
  apply Nat.leb_gt in E. destruct run as [|[|[|r]]]; try reflexivity; lia.
Qed.

Lemma sub_newlines_ok (s : str) : forall run,
  nl_ok 0 (sub_newlines run s) = true.
Proof.
  induction s as [|c t IH]; simpl; intros run.
  - apply nl_ok_emit_end.
  - destruct (c =? NL)%N eqn:Hc; [apply IH|].
    apply nl_ok_emit; [exact Hc | apply IH].
Qed.

Lemma sub_hspace_nl_ok (s : str) : forall k,
  nl_ok k s = true ->
  nl_ok k (sub_hspace false s) = true /\ nl_ok 0 (sub_hspace true s) = true.
Proof.
  induction s as [|c t IH]; simpl; intros k H; [split; reflexivity|].
  destruct (is_hspace c) eqn:Hh.
  - assert (Hc : (c =? NL)%N = false).
    { unfold is_hspace in Hh. apply orb_prop in Hh.
      destruct Hh as [E|E]; apply N.eqb_eq in E; subst; reflexivity. }
    rewrite Hc in H. destruct (IH 0%nat H) as [_ H2].
    split; [simpl|]; exact H2.
  - simpl. destruct (c =? NL)%N.
    + apply andb_prop in H as [H1 H2].
      destruct (IH _ H2) as [H3 _].
      split.
      * rewrite H1; exact H3.
      * apply (nl_ok_mono _ (S k)); [lia | exact H3].
    + destruct (IH _ H) as [H3 _]; split; exact H3.
Qed.

Lemma sub_hspace_hs_ok (s : str) : forall b,
  hs_ok b (sub_hspace b s) = true.
Proof.
  induction s as [|c t IH]; simpl; intros b; [reflexivity|].
  destruct (is_hspace c) eqn:Hh.
  - destruct b; [apply IH|]. simpl. apply IH.
  - simpl. rewrite Hh. apply IH.
Qed.

Lemma hs_ok_weaken (s : str) b : hs_ok b s = true -> hs_ok false s = true.
Proof.
  destruct s as [|c t]; simpl; [reflexivity|].
  destruct (is_hspace c); [|auto].
  intros H; apply andb_prop in H as [_ H]; exact H.
Qed.

Lemma hs_ok_app_l (a b : str) : forall p,
  hs_ok p (a ++ b) = true -> hs_ok p a = true.
Proof.
  induction a as [|c t IH]; simpl; intros p; [reflexivity|].
  destruct (is_hspace c); [|auto].
  intros H; apply andb_prop in H as [H1 H2]. rewrite H1; simpl; auto.
Qed.

Lemma hs_ok_app_r (a b : str) : forall p,
  hs_ok p (a ++ b) = true -> hs_ok false b = true.
Proof.
  induction a as [|c t IH]; simpl; intros p.
  - apply hs_ok_weaken.
  - destruct (is_hspace c); [|eauto].
    intros H; apply andb_prop in H as [_ H]; eauto.
Qed.

End NormalizeFacts.

Section NormalizeShape.

Lemma in_strip (c : char) (s : str) : In c (strip s) -> In c s.
Proof.
  intros H. unfold strip in H.
  destruct (lstrip_split s) as (w & Hw & _).
  destruct (rstrip_split (lstrip s)) as (v & Hv & _).
  rewrite Hw, Hv. apply in_or_app; right. apply in_or_app; left. exact H.
Qed.

Lemma in_emit_newlines (c : char) run : In c (emit_newlines run) -> c = NL.
Proof.
  unfold emit_newlines. destruct (3 <=? run)%nat.
  - simpl; intuition congruence.
  - intros H; apply repeat_spec in H; exact H.
Qed.

Lemma in_sub_newlines (c : char) (s : str) : forall run,
  In c (sub_newlines run s) -> c = NL \/ In c s.
Proof.
  induction s as [|a t IH]; simpl; intros run H.
  - left; apply (in_emit_newlines _ _ H).
  - destruct (a =? NL)%N.
    + destruct (IH _ H); auto.
    + apply in_app_or in H as [H|[H|H]].
      * left; apply (in_emit_newlines _ _ H).
      * auto.
      * destruct (IH _ H); auto.
Qed.

Lemma in_sub_hspace (c : char) (s : str) : forall b,
  In c (sub_hspace b s) -> c = SP \/ (is_hspace c = false /\ In c s).
Proof.
  induction s as [|a t IH]; simpl; intros b H; [contradiction|].
  destruct (is_hspace a) eqn:Ha.
  - assert (H' : c = SP \/ In c (sub_hspace true t)).
    { destruct b; [right; exact H | destruct H; auto]. }
    destruct H' as [H'|H']; [auto|].
    destruct (IH _ H') as [E|[E1 E2]]; auto.
  - destruct H as [H|H].
    + subst a; auto.
    + destruct (IH _ H) as [E|[E1 E2]]; auto.
Qed.

Lemma replace_char_absent (old new : char) (s : str) :
  ~ In old s -> replace_char old new s = s.
Proof.
  induction s as [|c t IH]; simpl; intros H; [reflexivity|].
  destruct (N.eqb_spec c old) as [E|E].
  - exfalso; apply H; auto.
  - f_equal; apply IH; intros H'; apply H; auto.
Qed.

Lemma in_replace_char (old new : char) (s : str) :
  old <> new -> ~ In old (replace_char old new s).
Proof.
  intros Hn H. unfold replace_char in H. apply in_map_iff in H as (c & E & _).
  destruct (N.eqb_spec c old); congruence.
Qed.

Lemma repeat_snoc (c : char) n (s : str) :
  repeat c (S n) ++ s = repeat c n ++ c :: s.
Proof. induction n as [|n IH]; simpl in *; congruence. Qed.

Lemma sub_newlines_fixed (s : str) : forall k,
  (k <= 2)%nat -> nl_ok k s = true -> sub_newlines k s = repeat NL k ++ s.
Proof.
  induction s as [|c t IH]; simpl; intros k Hk H.
  - unfold emit_newlines. rewrite app_nil_r.
    destruct (Nat.leb_spec 3 k); [lia | reflexivity].
  - destruct (c =? NL)%N eqn:Hc.
    + apply andb_prop in H as [H1 H2]. apply Nat.ltb_lt in H1.
      rewrite (IH (S k)) by (assumption || lia).
      apply N.eqb_eq in Hc; subst c. apply repeat_snoc.
    + rewrite (IH 0%nat) by (assumption || lia). simpl.
      unfold emit_newlines.
      destruct (Nat.leb_spec 3 k); [lia | reflexivity].
Qed.

Lemma sub_hspace_fixed (s : str) : forall b,
  hs_ok b s = true -> ~ In TAB s -> sub_hspace b s = s.
Proof.
  induction s as [|c t IH]; simpl; intros b H Ht; [reflexivity|].
  assert (Ht' : ~ In TAB t) by (intros X; apply Ht; auto).
  destruct (is_hspace c) eqn:Hc.
  - apply andb_prop in H as [H1 H2].
    destruct b; [discriminate|].
    rewrite (IH _ H2 Ht'). f_equal.
    unfold is_hspace in Hc. apply orb_prop in Hc as [E|E];
      apply N.eqb_eq in E; [congruence|]. exfalso; apply Ht; auto.
  - rewrite (IH _ H Ht'); reflexivity.
Qed.

Lemma nl_ok_strip (s : str) : nl_ok 0 s = true -> nl_ok 0 (strip s) = true.
Proof.
  intros H. unfold strip.
  destruct (lstrip_split s) as (w & Hw & _).
  destruct (rstrip_split (lstrip s)) as (v & Hv & _).
  rewrite Hw in H. apply nl_ok_app_r in H. rewrite Hv in H.
  apply (nl_ok_app_l _ _ _ H).
Qed.

Lemma hs_ok_strip (s : str) : hs_ok false s = true -> hs_ok false (strip s) = true.
Proof.
  intros H. unfold strip.
  destruct (lstrip_split s) as (w & Hw & _).
  destruct (rstrip_split (lstrip s)) as (v & Hv & _).
  rewrite Hw in H. apply hs_ok_app_r in H. rewrite Hv in H.
  apply (hs_ok_app_l _ _ _ H).
Qed.

Lemma normalize_nl_ok (x : str) : nl_ok 0 (normalize_text x) = true.
Proof.
  unfold normalize_text. apply nl_ok_strip.
  apply (sub_hspace_nl_ok _ 0%nat), sub_newlines_ok.
Qed.

Lemma normalize_hs_ok (x : str) : hs_ok false (normalize_text x) = true.
Proof. unfold normalize_text. apply hs_ok_strip, sub_hspace_hs_ok. Qed.

Lemma normalize_chars (x : str) c :
  In c (normalize_text x) -> c <> CR /\ c <> TAB.
Proof.
  unfold normalize_text. intros H. apply in_strip in H.
  apply in_sub_hspace in H as [->|[Hh H]].
  - split; discriminate.
  - split.
    + intros ->. apply in_sub_newlines in H as [H|H]; [discriminate|].
      revert H. apply in_replace_char. discriminate.
    + intros ->. discriminate.
Qed.

Lemma normalize_stripped (x : str) : strip (normalize_text x) = normalize_text x.
Proof. unfold normalize_text. apply strip_idem. Qed.

End NormalizeShape.

(** C4. [normalize_text] is idempotent: normalizing a normalized text
    gives it back, for every string. *)
Theorem normalize_text_idempotent (x : str) :
  normalize_text (normalize_text x) = normalize_text x.
Proof.
  set (y := normalize_text x).
  assert (Hcr : ~ In CR y) by (intros H; apply (normalize_chars x) in H; tauto).
  assert (Htab : ~ In TAB y) by (intros H; apply (normalize_chars x) in H; tauto).
  unfold normalize_text at 1.
  rewrite (replace_char_absent _ _ _ Hcr).
  rewrite (sub_newlines_fixed y 0%nat) by (lia || apply normalize_nl_ok).
  simpl. rewrite (sub_hspace_fixed y false (normalize_hs_ok x) Htab).
  apply normalize_stripped.
Qed.

(** C5. The output of [normalize_text] has no three newlines in a row,
    no two horizontal whitespace characters (space, tab) in a row, no
    carriage return, and neither starts nor ends with whitespace. *)
Theorem normalize_text_shape (x : str) :
  (forall pre post, normalize_text x <> pre ++ [NL; NL; NL] ++ post)
  /\ (forall pre a b post, normalize_text x = pre ++ a :: b :: post ->
        is_hspace a && is_hspace b = false)
  /\ (forall pre post, normalize_text x <> pre ++ CR :: post)
  /\ (forall c rest, normalize_text x = c :: rest -> isspace c = false)
  /\ (forall init c, normalize_text x = init ++ [c] -> isspace c = false)
  /\ strip (normalize_text x) = normalize_text x.
Proof.
  repeat split.
  - intros pre post E.
    pose proof (normalize_nl_ok x) as H. rewrite E in H.
    apply nl_ok_app_r in H. discriminate H.
  - intros pre a b post E.
    pose proof (normalize_hs_ok x) as H. rewrite E in H.
    apply hs_ok_app_r in H. simpl in H.
    destruct (is_hspace a), (is_hspace b); simpl in *; congruence.
  - intros pre post E.
    assert (H : In CR (normalize_text x)) by (rewrite E; apply in_elt).
    apply normalize_chars in H; tauto.
  - intros c rest E. apply (trimmed_first _ c rest (normalize_stripped x) E).
  - intros init c E. apply (trimmed_final _ init c (normalize_stripped x) E).
  - apply normalize_stripped.
Qed.

(** * The chunker *)

Section ChunkerFacts.

Variables m o : Z.

Lemma loop_buffers (ps : list str) : forall chunks cur,
  (let '(cs, b) := fold_left (loop_body m o) ps (chunks, cur) in
   if truthy (strip b) then cs ++ [strip b] else cs)
  = chunks ++ map strip (buffers m o ps cur).
Proof.
  induction ps as [|p rest IH]; intros chunks cur; simpl.
  - destruct (truthy (strip cur)); simpl; [reflexivity | now rewrite app_nil_r].
  - destruct (len cur + len p + 2 >? m); simpl.
    + destruct (truthy cur); simpl.
      * rewrite IH, <- app_assoc. reflexivity.
      * apply IH.
    + apply IH.
Qed.

Lemma split_into_chunks_buffers (text : str) :
  split_into_chunks text m o
  = map strip (buffers m o (paragraphs_of (normalize_text text)) []).
Proof.
  unfold split_into_chunks.
  pose proof (loop_buffers (paragraphs_of (normalize_text text)) [] []) as H.
  simpl in H. exact H.
Qed.

Lemma truthy_true (s : str) : truthy s = true <-> s <> [].
Proof. destruct s; simpl; split; congruence. Qed.

Lemma truthy_false (s : str) : truthy s = false <-> s = [].
Proof. destruct s; simpl; split; congruence. Qed.

Lemma rstrip_nil_space (s : str) : rstrip s = [] -> all_space s.
Proof.
  intros H. destruct (rstrip_split s) as (w & Hw & Hs).
  rewrite H in Hw. simpl in Hw. subst w. exact Hs.
Qed.

Lemma rstrip_length (s : str) : (length (rstrip s) <= length s)%nat.
Proof.
  destruct (rstrip_split s) as (w & Hw & _).
  rewrite Hw at 2. rewrite length_app. lia.
Qed.

Lemma lstrip_length (s : str) : (length (lstrip s) <= length s)%nat.
Proof.
  destruct (lstrip_split s) as (w & Hw & _).
  rewrite Hw at 2. rewrite length_app. lia.
Qed.

Lemma strip_length (s : str) : len (strip s) <= len s.
Proof.
  unfold len, strip.
  pose proof (rstrip_length (lstrip s)). pose proof (lstrip_length s). lia.
Qed.

(** A non-empty suffix of a string that ends with a character that is
    not whitespace ends with it too. *)
Lemma suffix_rstrip (a s : str) :
  rstrip (a ++ s) = a ++ s -> s <> [] -> rstrip s = s.
Proof.
  intros H Hs. destruct (rstrip s) as [|c r] eqn:E.
  - exfalso. apply rstrip_nil_space in E.
    rewrite (rstrip_app_space a s E) in H.
    pose proof (rstrip_length a) as L. rewrite H, length_app in L.
    destruct s; [congruence | simpl in L; lia].
  - rewrite rstrip_app in H by congruence.
    apply app_inv_head in H. congruence.
Qed.

Lemma good_suffix (a s : str) : good (a ++ s) -> s <> [] -> good s.
Proof.
  intros [_ H] Hs. split; [exact Hs | apply (suffix_rstrip a s H Hs)].
Qed.

Lemma good_lstrip (b : str) : good b -> good (lstrip b).
Proof.
  intros Hb. destruct (lstrip_split b) as (w & Hw & Hs).
  assert (Hn : lstrip b <> []).
  { intros E. rewrite E, app_nil_r in Hw. subst w.
    destruct Hb as [Hb1 Hb2]. rewrite (rstrip_all_space _ Hs) in Hb2.
    congruence. }
  rewrite Hw in Hb. apply (good_suffix _ _ Hb Hn).
Qed.

Lemma good_strip (b : str) : good b -> strip b = lstrip b /\ strip b <> [].
Proof.
  intros Hb. destruct (good_lstrip b Hb) as [H1 H2].
  unfold strip. rewrite H2. split; [reflexivity | exact H1].
Qed.

Lemma good_trimmed (b : str) : good b -> trimmed (strip b).
Proof. intros Hb. apply strip_trimmed, (good_strip b Hb). Qed.

Lemma trimmed_good (p : str) : trimmed p -> good p.
Proof. intros [H1 H2]. split; [exact H1 | apply trimmed_rstrip, H2]. Qed.

Lemma good_append (cur p : str) : trimmed p -> good (append_para cur p).
Proof.
  intros Hp. destruct (trimmed_good p Hp) as [Hn Hr].
  unfold append_para. destruct (truthy cur); [|split; assumption].
  split.
  - destruct cur; simpl; discriminate.
  - rewrite app_assoc, rstrip_app by congruence. rewrite Hr. reflexivity.
Qed.

Lemma slice_tail (b : str) :
  0 < o -> o < len b ->
  exists a, b = a ++ slice_from b (- o) /\ len (slice_from b (- o)) = o.
Proof.
  unfold len; intros H1 H2. unfold slice_from, len.
  destruct (Z.ltb_spec (- o) 0); [|lia].
  rewrite Z.max_r by lia.
  exists (firstn (Z.to_nat (- o + Z.of_nat (length b))) b). split.
  - symmetry; apply firstn_skipn.
  - rewrite length_skipn. lia.
Qed.

Lemma seed_of_cases (b : str) :
  seed_of o b = []
  \/ (0 < o /\ o < len b /\ seed_of o b = slice_from b (- o)
      /\ len (seed_of o b) = o /\ exists a, b = a ++ seed_of o b).
Proof.
  unfold seed_of.
  destruct (Z.gtb_spec o 0); simpl; [|left; reflexivity].
  destruct (Z.gtb_spec (len b) o); [|left; reflexivity].
  right. destruct (slice_tail b) as (a & Ha & Hl); try lia.
  repeat split; try lia; try assumption. exists a; exact Ha.
Qed.

Lemma seed_good (b : str) : good b -> seed_of o b = [] \/ good (seed_of o b).
Proof.
  intros Hb. destruct (seed_of_cases b) as [E|(H1 & H2 & _ & H3 & a & Ha)];
    [left; exact E | right].
  rewrite Ha in Hb. apply (good_suffix _ _ Hb).
  intros E. rewrite E in H3. unfold len in H3; simpl in H3. lia.
Qed.

Lemma buffers_good (ps : list str) : forall cur,
  Forall trimmed ps -> cur = [] \/ good cur ->
  Forall good (buffers m o ps cur).
Proof.
  induction ps as [|p rest IH]; intros cur Hps Hcur; simpl.
  - destruct (truthy (strip cur)) eqn:E; [|constructor].
    constructor; [|constructor].
    destruct Hcur as [->|H]; [discriminate | exact H].
  - inversion Hps as [|? ? Hp Hrest]; subst.
    destruct (len cur + len p + 2 >? m); simpl.
    + destruct (truthy cur) eqn:E.
      * constructor.
        -- destruct Hcur as [->|H]; [discriminate | exact H].
        -- apply IH; [exact Hrest | right; apply good_append, Hp].
      * apply IH; [exact Hrest | right; apply good_append, Hp].
    + apply IH; [exact Hrest | right; apply good_append, Hp].
Qed.

Lemma paragraphs_trimmed (text : str) : Forall trimmed (paragraphs_of text).
Proof.
  unfold paragraphs_of. apply Forall_forall. intros p Hp.
  apply in_map_iff in Hp as (q & <- & Hq).
  apply filter_In in Hq as [_ Hq].
  apply strip_trimmed, truthy_true, Hq.
Qed.

End ChunkerFacts.

(** C10. Every chunk that [split_into_chunks] returns is a non-empty
    string that equals its own strip: it neither starts nor ends with
    whitespace.  This holds for every text and every configuration. *)
Theorem chunks_are_trimmed (text : str) (max_chunk_size overlap : Z) :
  Forall trimmed (split_into_chunks text max_chunk_size overlap).
Proof.
  rewrite split_into_chunks_buffers.
  apply Forall_map.
  eapply Forall_impl; [intros b Hb; apply (good_trimmed b Hb)|].
  apply buffers_good; [apply paragraphs_trimmed | left; reflexivity].
Qed.

Section SizeBound.

Variables m o : Z.

Lemma len_app (a b : str) : len (a ++ b) = len a + len b.
Proof. unfold len. rewrite length_app. lia. Qed.

Lemma len_append_para (cur p : str) :
  len (append_para cur p) <= len cur + len p + 2.
Proof.
  unfold append_para. destruct (truthy cur).
  - rewrite !len_app. change (len SEP) with 2. lia.
  - unfold len; lia.
Qed.

Lemma fits_seeded (all : list str) (cur p : str) :
  In p all -> fits m o all (append_para (seed_of o cur) p).
Proof.
  intros Hp. right. exists p. split; [exact Hp|].
  destruct (seed_of_cases o cur) as [E|(H1 & _ & _ & H3 & _)].
  - left. rewrite E. reflexivity.
  - right. split; [exact H1|]. exists (seed_of o cur). split; [exact H3|].
    unfold append_para. destruct (seed_of o cur) eqn:E; simpl.
    + unfold len in H3; simpl in H3; lia.
    + reflexivity.
Qed.

Lemma buffers_fit (all ps : list str) : forall cur,
  (forall p, In p ps -> In p all) ->
  cur = [] \/ fits m o all cur ->
  Forall (fits m o all) (buffers m o ps cur).
Proof.
  induction ps as [|p rest IH]; intros cur Hin Hcur; simpl.
  - destruct (truthy (strip cur)) eqn:E; [|constructor].
    constructor; [|constructor].
    destruct Hcur as [->|H]; [discriminate | exact H].
  - assert (Hp : In p all) by (apply Hin; left; reflexivity).
    assert (Hrest : forall q, In q rest -> In q all)
      by (intros q Hq; apply Hin; right; exact Hq).
    destruct (Z.gtb_spec (len cur + len p + 2) m) as [Hgt|Hle]; simpl.
    + destruct (truthy cur) eqn:E.
      * constructor.
        -- destruct Hcur as [->|H]; [discriminate | exact H].
        -- apply IH; [exact Hrest | right; apply fits_seeded, Hp].
      * apply IH; [exact Hrest | right].
        apply truthy_false in E; subst cur.
        right. exists p. split; [exact Hp | left; reflexivity].
    + apply IH; [exact Hrest | right].
      left. pose proof (len_append_para cur p). lia.
Qed.

End SizeBound.

(** C1, as the code has it.  Every chunk is at most [max_chunk_size]
    long, except a chunk made of a single paragraph: the paragraph alone,
    or, when [overlap > 0], the strip of the seed (the last [overlap]
    characters of the buffer before), the separator and the paragraph,
    at most [overlap + 2 + len paragraph] long.  The seeded buffer is not
    tested against the bound again. *)
Theorem chunk_size_bound (text : str) (max_chunk_size overlap : Z) :
  Forall
    (fun c =>
       len c <= max_chunk_size
       \/ exists p, In p (paragraphs_of (normalize_text text))
            /\ (c = p
                \/ (0 < overlap
                    /\ len c <= overlap + 2 + len p
                    /\ exists seed, len seed = overlap
                         /\ c = strip (seed ++ SEP ++ p))))
    (split_into_chunks text max_chunk_size overlap).
Proof.
  rewrite split_into_chunks_buffers.
  set (ps := paragraphs_of (normalize_text text)).
  apply Forall_map.
  assert (Hfit : Forall (fits max_chunk_size overlap ps)
                   (buffers max_chunk_size overlap ps [])).
  { apply buffers_fit; [auto | left; reflexivity]. }
  eapply Forall_impl; [|exact Hfit].
  intros b [Hb|(p & Hp & Hb)].
  - left. pose proof (strip_length b). lia.
  - right. exists p. split; [exact Hp|].
    destruct Hb as [->|(Ho & seed & Hs & ->)].
    + left. pose proof (paragraphs_trimmed (normalize_text text)) as Ht.
      rewrite Forall_forall in Ht. apply (Ht p Hp).
    + right. split; [exact Ho|]. split.
      * pose proof (strip_length (seed ++ SEP ++ p)) as L.
        rewrite !len_app in L. change (len SEP) with 2 in L. lia.
      * exists seed. split; [exact Hs | reflexivity].
Qed.

Section Grouping.

Variables m o : Z.

Lemma fold_append (g : list str) : forall cur,
  cur <> [] ->
  fold_left append_para g cur = cur ++ concat (map (app SEP) g).
Proof.
  induction g as [|p g IH]; intros cur Hc; simpl.
  - now rewrite app_nil_r.
  - assert (E : append_para cur p = cur ++ SEP ++ p).
    { unfold append_para. destruct cur; [congruence | reflexivity]. }
    rewrite E, IH.
    + rewrite <- !app_assoc. reflexivity.
    + destruct cur; [congruence | discriminate].
Qed.

Lemma join_cons (g : list str) : forall p,
  join SEP (p :: g) = p ++ concat (map (app SEP) g).
Proof.
  induction g as [|q g IH]; intros p.
  - simpl. now rewrite app_nil_r.
  - change (join SEP (p :: q :: g)) with (p ++ SEP ++ join SEP (q :: g)).
    rewrite IH. cbn [map concat]. rewrite <- app_assoc. reflexivity.
Qed.

Lemma fold_join (g : list str) (seed : str) :
  Forall trimmed g -> g <> [] ->
  fold_left append_para g seed = append_para seed (join SEP g).
Proof.
  intros Hg Hn. destruct g as [|p g]; [congruence|].
  inversion Hg as [|? ? [Hp _] _]; subst.
  rewrite join_cons. simpl fold_left.
  unfold append_para at 2 3. destruct (truthy seed) eqn:E.
  - rewrite fold_append by (destruct seed; simpl; discriminate).
    rewrite <- !app_assoc. reflexivity.
  - apply fold_append, Hp.
Qed.

Lemma join_good (g : list str) :
  Forall trimmed g -> g <> [] -> good (join SEP g).
Proof.
  induction g as [|p g IH]; intros Hg Hn; [congruence|].
  inversion Hg as [|? ? Hp Hrest]; subst.
  destruct g as [|q g].
  - apply trimmed_good, Hp.
  - change (join SEP (p :: q :: g)) with (p ++ SEP ++ join SEP (q :: g)).
    destruct (IH Hrest) as [H1 H2]; [discriminate|].
    split.
    + destruct Hp as [Hp _]. destruct p; [congruence | discriminate].
    + rewrite app_assoc, rstrip_app by congruence. rewrite H2. reflexivity.
Qed.

Lemma join_trimmed (g : list str) :
  Forall trimmed g -> g <> [] -> trimmed (join SEP g).
Proof.
  intros Hg Hn. destruct (join_good g Hg Hn) as [H1 H2].
  split; [exact H1|].
  destruct g as [|p g]; [congruence|].
  inversion Hg as [|? ? [Hp Hs] _]; subst.
  unfold strip. rewrite join_cons in *.
  rewrite lstrip_app; rewrite (trimmed_lstrip p Hs); [exact H2 | exact Hp].
Qed.

Lemma strip_seeded (seed J : str) :
  seed = [] \/ good seed -> trimmed J ->
  strip (append_para seed J) = overlap_prefix seed ++ J.
Proof.
  intros Hs [Hn HJ]. unfold append_para, overlap_prefix.
  destruct Hs as [->|Hs]; [exact HJ|].
  destruct (good_lstrip seed Hs) as [Hl _].
  assert (E : truthy seed = true) by (apply truthy_true, Hs).
  rewrite E. unfold strip. rewrite lstrip_app by exact Hl.
  rewrite app_assoc, rstrip_app; rewrite (trimmed_rstrip J HJ);
    [now rewrite <- app_assoc | exact Hn].
Qed.

Lemma seed_of_nil : seed_of o [] = [].
Proof.
  unfold seed_of. destruct (Z.gtb_spec o 0) as [Ho|Ho]; [|reflexivity].
  destruct (Z.gtb_spec (len []) o) as [Hl|Hl]; [|reflexivity].
  unfold len in Hl; simpl in Hl; lia.
Qed.

Lemma buffers_groups (ps : list str) : forall cur,
  Forall trimmed ps -> good cur ->
  exists g groups,
    ps = g ++ concat groups
    /\ Forall (fun g => g <> []) groups
    /\ buffers m o ps cur
       = raw_buffers o (fold_left append_para g cur) groups.
Proof.
  induction ps as [|p rest IH]; intros cur Hps Hcur.
  - exists [], []. repeat split; [constructor|].
    simpl. destruct (good_strip cur Hcur) as [_ Hn].
    apply truthy_true in Hn. rewrite Hn. reflexivity.
  - inversion Hps as [|? ? Hp Hrest]; subst. simpl.
    destruct ((len cur + len p + 2 >? m) && truthy cur).
    + destruct (IH (append_para (seed_of o cur) p) Hrest (good_append _ p Hp))
        as (g & groups & E1 & E2 & E3).
      exists [], ((p :: g) :: groups). repeat split.
      * simpl. now rewrite E1.
      * constructor; [discriminate | exact E2].
      * simpl. rewrite E3. reflexivity.
    + destruct (IH (append_para cur p) Hrest (good_append _ p Hp))
        as (g & groups & E1 & E2 & E3).
      exists (p :: g), groups. repeat split.
      * simpl. now rewrite E1.
      * exact E2.
      * exact E3.
Qed.

Lemma strip_raw_buffers (groups : list (list str)) : forall b,
  good b -> Forall (Forall trimmed) groups ->
  Forall (fun g => g <> []) groups ->
  map strip (raw_buffers o b groups) = strip b :: assemble o b groups.
Proof.
  induction groups as [|g rest IH]; intros b Hb Ht Hn; [reflexivity|].
  inversion Ht as [|? ? Hg Hrest]; subst.
  inversion Hn as [|? ? Hg' Hrest']; subst.
  pose proof (join_trimmed g Hg Hg') as HJ.
  simpl. f_equal.
  rewrite (fold_join g _ Hg Hg').
  rewrite IH; [|apply good_append, HJ | exact Hrest | exact Hrest'].
  f_equal. apply strip_seeded; [apply seed_good, Hb | exact HJ].
Qed.

(** The chunks of a non-empty paragraph list, by groups. *)
Lemma chunks_by_groups (p : str) (rest : list str) :
  Forall trimmed (p :: rest) ->
  exists g groups,
    rest = g ++ concat groups
    /\ Forall (fun g => g <> []) groups
    /\ Forall (Forall trimmed) groups
    /\ buffers m o (p :: rest) []
       = raw_buffers o (join SEP (p :: g)) groups
    /\ good (join SEP (p :: g)).
Proof.
  intros Hps. inversion Hps as [|? ? Hp Hrest]; subst.
  destruct (buffers_groups rest p Hrest (trimmed_good p Hp))
    as (g & groups & E1 & E2 & E3).
  exists g, groups.
  assert (Hg : Forall trimmed g /\ Forall (Forall trimmed) groups).
  { rewrite E1 in Hrest. apply Forall_app in Hrest as [H1 H2].
    split; [exact H1 | apply Forall_concat, H2]. }
  destruct Hg as [Hg1 Hg2].
  assert (Hpg : Forall trimmed (p :: g)) by (constructor; assumption).
  repeat split; try assumption.
  - cbn [buffers truthy]. rewrite andb_false_r.
    change (append_para [] p) with p. rewrite E3.
    assert (E : fold_left append_para g p = join SEP (p :: g)).
    { change (fold_left append_para g p)
        with (fold_left append_para (p :: g) []).
      rewrite fold_join by (assumption || discriminate). reflexivity. }
    rewrite E. reflexivity.
  - apply join_good; [exact Hpg | discriminate].
  - apply join_good; [exact Hpg | discriminate].
Qed.

End Grouping.

(** C3. The chunks are the paragraphs of the normalized text cut into
    consecutive non-empty groups: each chunk is its overlap prefix (empty
    for the first chunk, else what the strip leaves of the seed, then
    the separator) followed by the paragraphs of its group joined by the
    separator.  The groups concatenated are the paragraph sequence: none
    dropped, duplicated or reordered. *)
Theorem chunk_coverage (text : str) (max_chunk_size overlap : Z) :
  exists groups : list (list str),
    concat groups = paragraphs_of (normalize_text text)
    /\ Forall (fun g => g <> []) groups
    /\ split_into_chunks text max_chunk_size overlap
       = assemble overlap [] groups.
Proof.
  rewrite split_into_chunks_buffers.
  pose proof (paragraphs_trimmed (normalize_text text)) as Ht.
  destruct (paragraphs_of (normalize_text text)) as [|p rest].
  - exists []. repeat split; constructor.
  - destruct (chunks_by_groups max_chunk_size overlap p rest Ht)
      as (g & groups & E1 & E2 & E3 & E4 & E5).
    exists ((p :: g) :: groups). repeat split.
    + simpl. now rewrite E1.
    + constructor; [discriminate | exact E2].
    + assert (HJ : trimmed (join SEP (p :: g))).
      { apply join_trimmed; [|discriminate].
        inversion Ht as [|? ? Hp Hrest]; subst. constructor; [exact Hp|].
        apply Forall_app in Hrest as [Hg _]; exact Hg. }
      rewrite E4, strip_raw_buffers by assumption.
      cbn [assemble]. rewrite seed_of_nil.
      unfold overlap_prefix, append_para. cbn [truthy app].
      rewrite (proj2 HJ). reflexivity.
Qed.

Section Overlap.

Variable o : Z.

Lemma raw_buffers_head (b : str) (groups : list (list str)) :
  nth_error (raw_buffers o b groups) 0 = Some b.
Proof. destruct groups; reflexivity. Qed.

Lemma raw_consecutive (groups : list (list str)) : forall b i x y,
  good b -> Forall (Forall trimmed) groups ->
  Forall (fun g => g <> []) groups ->
  nth_error (raw_buffers o b groups) i = Some x ->
  nth_error (raw_buffers o b groups) (S i) = Some y ->
  good x
  /\ exists g, g <> [] /\ Forall trimmed g
       /\ y = append_para (seed_of o x) (join SEP g).
Proof.
  induction groups as [|g rest IH]; intros b i x y Hb Ht Hn Hx Hy.
  - simpl in Hy. destruct i; discriminate.
  - inversion Ht as [|? ? Hg Hrest]; subst.
    inversion Hn as [|? ? Hg' Hrest']; subst.
    change (raw_buffers o b (g :: rest))
      with (b :: raw_buffers o (fold_left append_para g (seed_of o b)) rest)
      in Hx, Hy.
    rewrite (fold_join g _ Hg Hg') in Hx, Hy.
    change (nth_error (b :: ?l) (S ?n)) with (nth_error l n) in Hy.
    destruct i as [|i].
    + injection Hx as <-. rewrite raw_buffers_head in Hy.
      injection Hy as <-. split; [exact Hb|].
      exists g. repeat split; assumption.
    + change (nth_error (b :: ?l) (S ?n)) with (nth_error l n) in Hx.
      apply (IH (append_para (seed_of o b) (join SEP g)) i x y);
        try assumption.
      apply good_append, join_trimmed; assumption.
Qed.

Lemma slice_from_suffix (w s : str) :
  0 < o -> o <= len s ->
  slice_from (w ++ s) (- o) = slice_from s (- o).
Proof.
  unfold slice_from, len. intros H1 H2.
  destruct (Z.ltb_spec (- o) 0); [|lia].
  rewrite length_app, !Z.max_r by lia.
  rewrite skipn_app, skipn_all2 by lia.
  simpl. f_equal. lia.
Qed.

Lemma firstn_prefix (a b : str) n : n = length a -> firstn n (a ++ b) = a.
Proof.
  intros ->. rewrite firstn_app, firstn_all, Nat.sub_diag.
  simpl. apply app_nil_r.
Qed.

End Overlap.

(** C2, as the code has it.  With [overlap > 0], when a chunk is longer
    than [overlap], the next chunk starts with the last [overlap]
    characters of that chunk without their leading whitespace (every
    chunk is stripped), followed by the separator and the novel
    content.  When those characters start with a character that is not
    whitespace, they are the first [overlap] characters of the next
    chunk. *)
Theorem chunk_overlap (text : str) (max_chunk_size overlap : Z)
    (i : nat) (prev c : str) :
  0 < overlap ->
  nth_error (split_into_chunks text max_chunk_size overlap) i = Some prev ->
  nth_error (split_into_chunks text max_chunk_size overlap) (S i) = Some c ->
  overlap < len prev ->
  (exists novel,
      c = lstrip (slice_from prev (- overlap)) ++ SEP ++ novel)
  /\ (forall a t, slice_from prev (- overlap) = a :: t ->
        isspace a = false ->
        firstn (Z.to_nat overlap) c = slice_from prev (- overlap)).
Proof.
  intros Ho Hi Hsi Hlen.
  rewrite split_into_chunks_buffers in Hi, Hsi.
  pose proof (paragraphs_trimmed (normalize_text text)) as Ht.
  destruct (paragraphs_of (normalize_text text)) as [|p rest].
  { destruct i; discriminate. }
  destruct (chunks_by_groups max_chunk_size overlap p rest Ht)
    as (g0 & groups & _ & E2 & E3 & E4 & E5).
  rewrite E4 in Hi, Hsi. rewrite nth_error_map in Hi, Hsi.
  destruct (nth_error (raw_buffers overlap (join SEP (p :: g0)) groups) i)
    as [x|] eqn:Hx; [|discriminate].
  destruct (nth_error (raw_buffers overlap (join SEP (p :: g0)) groups) (S i))
    as [y|] eqn:Hy; [|discriminate].
  injection Hi as <-. injection Hsi as <-.
  destruct (raw_consecutive overlap groups _ i x y E5 E3 E2 Hx Hy)
    as (Hgx & g & Hg1 & Hg2 & ->).
  pose proof (join_trimmed g Hg2 Hg1) as HJ.
  rewrite (strip_seeded _ _ (seed_good overlap x Hgx) HJ).
  (* the seed is the tail of the chunk before *)
  destruct (good_strip x Hgx) as [Es _].
  destruct (lstrip_split x) as (w & Hw & _).
  pose proof (strip_length x) as Lx.
  assert (Eseed : seed_of overlap x = slice_from (strip x) (- overlap)).
  { destruct (seed_of_cases overlap x) as [E|(_ & _ & E & _)].
    - exfalso. unfold seed_of in E.
      destruct (Z.gtb_spec overlap 0); [|lia].
      destruct (Z.gtb_spec (len x) overlap); [|lia].
      simpl in E. destruct (slice_tail overlap x) as (a & _ & L); try lia.
      rewrite E in L. unfold len in L; simpl in L. lia.
    - rewrite E, Es. rewrite Hw at 1.
      apply slice_from_suffix; [exact Ho | rewrite <- Es; lia]. }
  rewrite Eseed.
  destruct (slice_tail overlap (strip x)) as (a & _ & L); try lia.
  set (seed := slice_from (strip x) (- overlap)) in *.
  assert (Etr : truthy seed = true).
  { destruct seed; [unfold len in L; simpl in L; lia | reflexivity]. }
  unfold overlap_prefix. rewrite Etr. split.
  - exists (join SEP g). now rewrite <- app_assoc.
  - intros c t Hc Hsp. rewrite Hc, (lstrip_fix c t Hsp), <- Hc.
    rewrite <- app_assoc. apply firstn_prefix. unfold len in L. lia.
Qed.

(** C2 at a text whose overlap tail starts with a letter. *)
Lemma chunk_overlap_witness :
  (exists novel,
      lit "bbbbb" ++ SEP ++ lit "cccccccc"
      = lstrip (slice_from (lit "aaaabbbbb") (- 5)) ++ SEP ++ novel)
  /\ (forall a t, slice_from (lit "aaaabbbbb") (- 5) = a :: t ->
        isspace a = false ->
        firstn (Z.to_nat 5) (lit "bbbbb" ++ SEP ++ lit "cccccccc")
        = slice_from (lit "aaaabbbbb") (- 5)).
Proof.
  apply (chunk_overlap text_letter_tail 12 5 0
           (lit "aaaabbbbb") (lit "bbbbb" ++ SEP ++ lit "cccccccc"));
    reflexivity.
Defined.

(** The overlap property as the specification words it fails where the
    overlap tail starts with whitespace: the chunk is stripped. *)
Lemma overlap_counterexample :
  split_into_chunks text_space_tail 12 5
  = [lit "aaaa bbbb"; lit "bbbb" ++ SEP ++ lit "cccccccc"]
  /\ slice_from (lit "aaaa bbbb") (- 5) = lit " bbbb"
  /\ firstn 5 (lit "bbbb" ++ SEP ++ lit "cccccccc") = lit "bbbb" ++ [NL]
  /\ ~ overlap_as_stated text_space_tail 12 5.
Proof.
  repeat split; try (vm_compute; reflexivity).
  intros H.
  specialize (H 0%nat (lit "aaaa bbbb") (lit "bbbb" ++ SEP ++ lit "cccccccc")).
  assert (E : firstn (Z.to_nat 5) (lit "bbbb" ++ SEP ++ lit "cccccccc")
              = slice_from (lit "aaaa bbbb") (- 5))
    by (apply H; reflexivity).
  vm_compute in E. discriminate E.
Qed.

(** The size bound as the specification words it fails behind a seed:
    no paragraph is longer than the bound, the second chunk is. *)
Lemma size_bound_counterexample :
  split_into_chunks text_two_short 10 3
  = [lit "aaaaaa"; lit "aaa" ++ SEP ++ lit "bbbbbbbb"]
  /\ paragraphs_of (normalize_text text_two_short)
    = [lit "aaaaaa"; lit "bbbbbbbb"]
  /\ len (lit "aaa" ++ SEP ++ lit "bbbbbbbb") = 13
  /\ ~ size_bound_as_stated text_two_short 10 3.
Proof.
  repeat split; try (vm_compute; reflexivity).
  intros H.
  destruct (H (lit "aaa" ++ SEP ++ lit "bbbbbbbb")) as [L|(p & Hp & L & _)].
  - vm_compute. right; left; reflexivity.
  - vm_compute in L. apply L; reflexivity.
  - vm_compute in Hp. destruct Hp as [<-|[<-|[]]]; vm_compute in L; discriminate L.
Qed.

Section EmptyInput.

Lemma all_space_forall (w : str) :
  all_space w <-> forall c, In c w -> isspace c = true.
Proof. unfold all_space. apply forallb_forall. Qed.

Lemma all_space_normalize (text : str) :
  all_space text -> normalize_text text = [].
Proof.
  intros H. unfold normalize_text. apply strip_all_space.
  rewrite all_space_forall in *. intros c Hc.
  apply in_sub_hspace in Hc as [->|[_ Hc]]; [reflexivity|].
  apply in_sub_newlines in Hc as [->|Hc]; [reflexivity|].
  unfold replace_char in Hc. apply in_map_iff in Hc as (d & <- & Hd).
  destruct (d =? CR)%N; [reflexivity | apply H, Hd].
Qed.

End EmptyInput.

(** C6. A text that normalizes to the empty string, as every text made
    of whitespace only does, gives no chunk. *)
Theorem empty_input_no_chunks (text : str) (max_chunk_size overlap : Z) :
  normalize_text text = [] \/ all_space text ->
  split_into_chunks text max_chunk_size overlap = [].
Proof.
  intros H.
  assert (E : normalize_text text = []).
  { destruct H as [H|H]; [exact H | apply all_space_normalize, H]. }
  unfold split_into_chunks. rewrite E. reflexivity.
Qed.

(** C6 at the two inputs the specification names. *)
Lemma empty_input_witness :
  split_into_chunks (lit "") 800 200 = []
  /\ split_into_chunks (lit "   " ++ [NL; NL; NL] ++ lit "  ") 800 200 = [].
Proof.
  split.
  - apply (empty_input_no_chunks (lit "") 800 200). left. reflexivity.
  - apply (empty_input_no_chunks (lit "   " ++ [NL; NL; NL] ++ lit "  ")
             800 200).
    right. reflexivity.
Defined.

(** * The prompt *)

Section TrimPrompt.

(** For a bound above zero [trim_prompt] keeps the last [max_chars]
    characters of a longer prompt and leaves a shorter one as it is. *)
Lemma trim_prompt_positive (prompt : str) (max_chars : Z) :
  0 < max_chars ->
  (max_chars < len prompt ->
     trim_prompt prompt max_chars
     = skipn (length prompt - Z.to_nat max_chars) prompt
     /\ len (trim_prompt prompt max_chars) = max_chars)
  /\ (len prompt <= max_chars -> trim_prompt prompt max_chars = prompt).
Proof.
  intros Hn. unfold trim_prompt. split.
  - intros Hl. destruct (Z.leb_spec (len prompt) max_chars); [lia|].
    destruct (slice_tail max_chars prompt Hn Hl) as (a & _ & L).
    split; [|exact L].
    unfold slice_from, len in *.
    destruct (Z.ltb_spec (- max_chars) 0); [|lia].
    f_equal. lia.
  - intros Hl. destruct (Z.leb_spec (len prompt) max_chars); [reflexivity|lia].
Qed.

(** With the bound zero the slice [prompt[-0:]] is the whole prompt. *)
Lemma trim_prompt_zero (c : char) (prompt : str) :
  trim_prompt (c :: prompt) 0 = c :: prompt.
Proof.
  unfold trim_prompt.
  destruct (Z.leb_spec (len (c :: prompt)) 0) as [H|H]; [reflexivity|].
  unfold slice_from. simpl Z.opp.
  destruct (Z.ltb_spec 0 0); [lia|].
  rewrite Z.min_l by (unfold len; lia). reflexivity.
Qed.

End TrimPrompt.

(** C7 at the bound zero: a prompt of three characters comes back
    whole, where its last zero characters are the empty string. *)
Theorem trim_prompt_zero_bound :
  trim_prompt (lit "abc") 0 = lit "abc"
  /\ len (trim_prompt (lit "abc") 0) = 3
  /\ trim_prompt (lit "abc") 2 = lit "bc"
  /\ trim_prompt (lit "abc") 5 = lit "abc".
Proof. repeat split; vm_compute; reflexivity. Qed.

Section BuildPrompt.

Lemma render_history_concat (chat_history : list ChatMessage) :
  render_history chat_history = concat (map render_message chat_history).
Proof.
  unfold render_history.
  assert (G : forall h acc,
             fold_left (fun t msg => t ++ render_message msg) h acc
             = acc ++ concat (map render_message h)).
  { induction h as [|msg h IH]; intros acc; simpl.
    - now rewrite app_nil_r.
    - rewrite IH, app_assoc. reflexivity. }
  apply (G chat_history []).
Qed.

(** Stripping a text that starts with one newline and a character that
    is not whitespace, and ends with a tail of known strip. *)
Lemma strip_framed (c : char) (body tail : str) :
  isspace c = false -> rstrip tail <> [] ->
  strip (NL :: c :: body ++ tail) = c :: body ++ rstrip tail.
Proof.
  intros Hc Ht. unfold strip.
  change (lstrip (NL :: c :: body ++ tail)) with (lstrip (c :: body ++ tail)).
  rewrite (lstrip_fix c _ Hc).
  apply (rstrip_app (c :: body) tail Ht).
Qed.

Lemma strip_template (c : char) (head body tail : str) :
  isspace c = false -> rstrip tail <> [] ->
  strip ((NL :: c :: head) ++ body ++ tail)
  = (c :: head) ++ body ++ rstrip tail.
Proof.
  intros Hc Ht.
  change ((NL :: c :: head) ++ body ++ tail)
    with (NL :: c :: (head ++ body ++ tail)).
  rewrite (app_assoc head body tail), (strip_framed c _ tail Hc Ht).
  change (c :: (head ++ body) ++ rstrip tail)
    with (((c :: head) ++ body) ++ rstrip tail).
  rewrite <- app_assoc. reflexivity.
Qed.

(** The template's first piece, without the newline it starts with. *)
Lemma template_head_pieces :
  template_head
  = NL :: 89%N :: tl (tl template_head)
  /\ 89%N :: tl (tl template_head)
    = lit "You are a helpful customer-support chatbot." ++ [NL]
      ++ INSTRUCTION ++ [NL]
      ++ lit "If the answer is not in the context, say you don't know."
      ++ [NL; NL] ++ lit "Conversation history:" ++ [NL].
Proof. split; vm_compute; reflexivity. Qed.

Lemma template_tail_strip :
  rstrip template_tail = [NL; NL] ++ lit "Answer:".
Proof. vm_compute; reflexivity. Qed.

(** The prompt, piece by piece. *)
Lemma build_prompt_pieces (chunks : list str) (hist : list ChatMessage)
    (q : str) :
  build_prompt chunks hist q
  = lit "You are a helpful customer-support chatbot." ++ [NL]
    ++ INSTRUCTION ++ [NL]
    ++ lit "If the answer is not in the context, say you don't know."
    ++ [NL; NL] ++ lit "Conversation history:" ++ [NL]
    ++ concat (map render_message hist)
    ++ [NL; NL] ++ lit "Context documents:" ++ [NL]
    ++ join [NL; NL] chunks
    ++ [NL; NL] ++ lit "User question:" ++ [NL]
    ++ q
    ++ [NL; NL] ++ lit "Answer:".
Proof.
  unfold build_prompt. rewrite render_history_concat.
  set (h := concat (map render_message hist)).
  set (c := join [NL; NL] chunks).
  destruct template_head_pieces as [Eh Ep].
  replace (h ++ template_context ++ c ++ template_question ++ q
           ++ template_tail)
    with ((h ++ template_context ++ c ++ template_question ++ q)
          ++ template_tail)
    by (rewrite <- !app_assoc; reflexivity).
  rewrite Eh.
  rewrite strip_template;
    [|reflexivity | rewrite template_tail_strip; discriminate].
  unfold str, char in *. rewrite Ep, template_tail_strip.
  unfold template_context, template_question.
  rewrite <- !app_assoc. reflexivity.
Qed.

End BuildPrompt.

(** C8. The prompt is the template, without the newline it starts and
    ends with, around the history, the context and the question: each
    message is rendered as the capitalized role, a colon and a space,
    the content and a newline, in the order of the history; the chunks
    are joined by two newlines.  So it contains the question, the
    rendered history, the joined chunks and the instruction to answer
    only from the context, also with no chunk and no history. *)
Theorem build_prompt_embeds (retrieved_chunks : list str)
    (chat_history : list ChatMessage) (user_question : str) :
  let history :=
    concat (map (fun msg => capitalize (role msg) ++ lit ": "
                            ++ content msg ++ [NL]) chat_history) in
  let context := join [NL; NL] retrieved_chunks in
  build_prompt retrieved_chunks chat_history user_question
  = lit "You are a helpful customer-support chatbot." ++ [NL]
    ++ lit "Answer ONLY using the provided context." ++ [NL]
    ++ lit "If the answer is not in the context, say you don't know."
    ++ [NL; NL] ++ lit "Conversation history:" ++ [NL]
    ++ history
    ++ [NL; NL] ++ lit "Context documents:" ++ [NL]
    ++ context
    ++ [NL; NL] ++ lit "User question:" ++ [NL]
    ++ user_question
    ++ [NL; NL] ++ lit "Answer:"
  /\ contains (build_prompt retrieved_chunks chat_history user_question)
              user_question
  /\ contains (build_prompt retrieved_chunks chat_history user_question)
              INSTRUCTION
  /\ contains (build_prompt retrieved_chunks chat_history user_question)
              history
  /\ contains (build_prompt retrieved_chunks chat_history user_question)
              context
  /\ contains (build_prompt [] [] user_question) user_question
  /\ contains (build_prompt [] [] user_question) INSTRUCTION.
Proof.
  intros history context.
  pose proof (build_prompt_pieces retrieved_chunks chat_history
                user_question) as E.
  pose proof (build_prompt_pieces [] [] user_question) as E0.
  repeat split.
  - exact E.
  - exists (lit "You are a helpful customer-support chatbot." ++ [NL]
            ++ INSTRUCTION ++ [NL]
            ++ lit "If the answer is not in the context, say you don't know."
            ++ [NL; NL] ++ lit "Conversation history:" ++ [NL]
            ++ history ++ [NL; NL] ++ lit "Context documents:" ++ [NL]
            ++ context ++ [NL; NL] ++ lit "User question:" ++ [NL]),
           ([NL; NL] ++ lit "Answer:").
    rewrite E, <- !app_assoc. reflexivity.
  - exists (lit "You are a helpful customer-support chatbot." ++ [NL]).
    eexists. rewrite E, <- !app_assoc. reflexivity.
  - exists (lit "You are a helpful customer-support chatbot." ++ [NL]
            ++ INSTRUCTION ++ [NL]
            ++ lit "If the answer is not in the context, say you don't know."
            ++ [NL; NL] ++ lit "Conversation history:" ++ [NL]).
    eexists. rewrite E, <- !app_assoc. reflexivity.
  - exists (lit "You are a helpful customer-support chatbot." ++ [NL]
            ++ INSTRUCTION ++ [NL]
            ++ lit "If the answer is not in the context, say you don't know."
            ++ [NL; NL] ++ lit "Conversation history:" ++ [NL]
            ++ history ++ [NL; NL] ++ lit "Context documents:" ++ [NL]).
    eexists. rewrite E, <- !app_assoc. reflexivity.
  - exists (lit "You are a helpful customer-support chatbot." ++ [NL]
            ++ INSTRUCTION ++ [NL]
            ++ lit "If the answer is not in the context, say you don't know."
            ++ [NL; NL] ++ lit "Conversation history:" ++ [NL]
            ++ [] ++ [NL; NL] ++ lit "Context documents:" ++ [NL]
            ++ [] ++ [NL; NL] ++ lit "User question:" ++ [NL]),
           ([NL; NL] ++ lit "Answer:").
    rewrite E0, <- !app_assoc. reflexivity.
  - exists (lit "You are a helpful customer-support chatbot." ++ [NL]).
    eexists. rewrite E0, <- !app_assoc. reflexivity.
Qed.

(** * The upload gate *)

Section UploadGate.

Lemma lower_char_letter (k c : char) :
  is_lower k = true ->
  (k =? lower_char c)%N = ((c =? k) || (c =? k - 32))%N.
Proof.
  unfold is_lower, lower_char, is_upper. intros Hk.
  apply andb_prop in Hk as [H1 H2].
  apply N.leb_le in H1. apply N.leb_le in H2.
  destruct (N.leb_spec 65 c), (N.leb_spec c 90); cbn [andb];
    destruct (N.eqb_spec c k), (N.eqb_spec c (k - 32)); cbn [orb];
    first [apply N.eqb_eq; lia | apply N.eqb_neq; lia].
Qed.

Lemma lower_char_dot (c : char) : (46 =? lower_char c)%N = (c =? 46)%N.
Proof.
  unfold lower_char, is_upper.
  destruct (N.leb_spec 65 c), (N.leb_spec c 90); cbn [andb];
    destruct (N.eqb_spec c 46);
    first [apply N.eqb_eq; lia | apply N.eqb_neq; lia].
Qed.

(** The test of the handler is the suffix test of the
    specification. *)
Lemma endswith_pdf (name : str) :
  endswith (lower name) (lit ".pdf") = pdf_suffix_ci name.
Proof.
  unfold endswith, lower, pdf_suffix_ci. rewrite <- map_rev.
  change (rev (lit ".pdf")) with [102%N; 100%N; 112%N; 46%N].
  destruct (rev name) as [|c4 [|c3 [|c2 [|c1 r]]]]; cbn [map startswith];
    rewrite ?andb_false_r; try reflexivity.
  rewrite (lower_char_letter 102%N c4), (lower_char_letter 100%N c3),
    (lower_char_letter 112%N c2), (lower_char_dot c1) by reflexivity.
  change (102 - 32)%N with 70%N. change (100 - 32)%N with 68%N.
  change (112 - 32)%N with 80%N.
  destruct (c1 =? 46)%N, (c2 =? 112)%N, (c2 =? 80)%N, (c3 =? 100)%N,
    (c3 =? 68)%N, (c4 =? 102)%N, (c4 =? 70)%N; reflexivity.
Qed.

End UploadGate.

(** C9. An upload whose file name does not end in [.pdf], in any
    letter case, is answered with the status 400 and leaves the storage
    as it was: [put_object] is not called.  Otherwise [put_object] is
    called once, with the key [chatbot_id/filename]: the storage after
    the request is the one this call leaves, and the answer names that
    key, or carries the status 500 when the call raised. *)
Theorem upload_pdf_gate (Storage : Type)
    (put_object : Storage -> str -> str -> list N -> str
                  -> Storage * option str)
    (bucket : str) (minio : Storage) (chatbot_id : str) (f : UploadFile) :
  let key := chatbot_id ++ lit "/" ++ filename f in
  let put := put_object minio bucket key (file f) (content_type f) in
  if pdf_suffix_ci (filename f)
  then snd (upload_pdf Storage put_object bucket minio chatbot_id f)
       = fst put
       /\ fst (upload_pdf Storage put_object bucket minio chatbot_id f)
          = match snd put with
            | None => Success (lit "PDF uploaded successfully")
                              chatbot_id key
            | Some e => HTTPException 500 e
            end
  else upload_pdf Storage put_object bucket minio chatbot_id f
       = (HTTPException 400 (lit "Only PDF files are allowed"), minio).
Proof.
  intros key put. unfold upload_pdf. rewrite endswith_pdf.
  destruct (pdf_suffix_ci (filename f)); cbn [negb]; [|reflexivity].
  fold key. fold put. destruct put as [minio' [e|]]; split; reflexivity.
Qed.

(** The gate on the in-memory storage: a PDF lands under its key, any
    other file leaves the storage empty. *)
Lemma upload_pdf_mem_examples :
  upload_pdf MemStorage mem_put (lit "docs") [] (lit "bot7")
    {| filename := lit "Manual.PDF"; file := [37%N; 80%N];
       content_type := lit "application/pdf" |}
  = (Success (lit "PDF uploaded successfully") (lit "bot7")
             (lit "bot7/Manual.PDF"),
     [(lit "docs", lit "bot7/Manual.PDF", [37%N; 80%N])])
  /\ upload_pdf MemStorage mem_put (lit "docs") [] (lit "bot7")
       {| filename := lit "notes.pdf.txt"; file := [37%N; 80%N];
          content_type := lit "text/plain" |}
     = (HTTPException 400 (lit "Only PDF files are allowed"), []).
Proof. split; vm_compute; reflexivity. Qed.

(** The grouping of a two-paragraph text cut after its first paragraph,
    and of a text kept in one chunk. *)
Example assemble_examples :
  split_into_chunks text_space_tail 12 5
  = assemble 5 [] [[lit "aaaa bbbb"]; [lit "cccccccc"]]
  /\ split_into_chunks text_space_tail 800 200
     = assemble 200 [] [[lit "aaaa bbbb"; lit "cccccccc"]].
Proof. split; vm_compute; reflexivity. Qed.

(** * More on the chunker *)

Section SplitJoin.

Lemma split_nlnl_cons (c d : char) (u : str) :
  split_nlnl (c :: d :: u)
  = if ((c =? NL) && (d =? NL))%N then [] :: split_nlnl u
    else push c (split_nlnl (d :: u)).
Proof. reflexivity. Qed.

Lemma split_nlnl_nonempty (s : str) : split_nlnl s <> [].
Proof.
  assert (G : forall t, split_nlnl t <> []
                        /\ forall c, split_nlnl (c :: t) <> []).
  { intros t. induction t as [|d u [IH1 IH2]].
    - split; [discriminate | intros c; discriminate].
    - split; [apply IH2|]. intros c. rewrite split_nlnl_cons.
      destruct ((c =? NL) && (d =? NL))%N; [discriminate|].
      specialize (IH2 d). destruct (split_nlnl (d :: u)); [congruence|].
      discriminate. }
  apply G.
Qed.

Lemma join_push (c : char) (pieces : list str) :
  pieces <> [] -> join SEP (push c pieces) = c :: join SEP pieces.
Proof. destruct pieces as [|p [|q r]]; [congruence | reflexivity..]. Qed.

Lemma join_nil_cons (pieces : list str) :
  pieces <> [] -> join SEP ([] :: pieces) = SEP ++ join SEP pieces.
Proof. destruct pieces; [congruence | reflexivity]. Qed.

Lemma join_split_pair (s : str) :
  join SEP (split_nlnl s) = s
  /\ forall c, join SEP (split_nlnl (c :: s)) = c :: s.
Proof.
  induction s as [|d u [IH1 IH2]].
  - split; [reflexivity | intros c; reflexivity].
  - split; [apply IH2|]. intros c. rewrite split_nlnl_cons.
    destruct (N.eqb_spec c NL) as [->|Hc]; cbn [andb].
    + destruct (N.eqb_spec d NL) as [->|Hd].
      * rewrite join_nil_cons by apply split_nlnl_nonempty.
        rewrite IH1. reflexivity.
      * rewrite join_push by apply split_nlnl_nonempty.
        rewrite IH2. reflexivity.
    + rewrite join_push by apply split_nlnl_nonempty.
      rewrite IH2. reflexivity.
Qed.

End SplitJoin.

(** Splitting a text on the blank-line separator and joining the
    pieces with it gives the text back, for every text. *)
Theorem join_split_roundtrip (s : str) : join SEP (split_nlnl s) = s.
Proof. destruct (join_split_pair s) as [H _]. exact H. Qed.

Section Pieces.

Lemma nlnl_free_cons2 (c d : char) (t : str) :
  nlnl_free (c :: d :: t)
  = negb ((c =? NL) && (d =? NL))%N && nlnl_free (d :: t).
Proof. reflexivity. Qed.

Lemma sep_free_cons2 (c d : char) (t : str) :
  sep_free (c :: d :: t)
  = negb ((c =? NL) && (d =? NL))%N && sep_free (d :: t).
Proof. reflexivity. Qed.

Lemma split_pieces_pair (s : str) :
  Forall (fun p => nlnl_free p = true) (split_nlnl s)
  /\ forall c,
       Forall (fun p => nlnl_free p = true) (split_nlnl (c :: s))
       /\ exists p r, split_nlnl (c :: s) = p :: r
                       /\ (p = [] \/ exists p', p = c :: p').
Proof.
  induction s as [|d u [IH1 IH2]].
  - split; [repeat constructor|]. intros c. split; [repeat constructor|].
    exists [c], []. split; [reflexivity | right; exists []; reflexivity].
  - split; [apply IH2|]. intros c. rewrite split_nlnl_cons.
    destruct ((c =? NL) && (d =? NL))%N eqn:E.
    + split; [constructor; [reflexivity | exact IH1]|].
      exists [], (split_nlnl u). split; [reflexivity | left; reflexivity].
    + destruct (IH2 d) as (Hf & p & r & Ep & Hp). rewrite Ep in *.
      inversion Hf as [|? ? Hfp Hfr]; subst. cbn [push]. split.
      * constructor; [|exact Hfr].
        destruct Hp as [->|(p' & ->)]; [reflexivity|].
        rewrite nlnl_free_cons2, E. exact Hfp.
      * exists (c :: p), r. split; [reflexivity | right; exists p; reflexivity].
Qed.

Lemma nlnl_free_app (a b : str) :
  nlnl_free (a ++ b) = true -> nlnl_free a = true /\ nlnl_free b = true.
Proof.
  induction a as [|c t IH]; intros H; [split; [reflexivity | exact H]|].
  destruct t as [|d t].
  - split; [reflexivity|]. destruct b as [|e b]; [reflexivity|].
    change ([c] ++ e :: b) with (c :: e :: b) in H.
    rewrite nlnl_free_cons2 in H. apply andb_prop in H as [_ H]. exact H.
  - change ((c :: d :: t) ++ b) with (c :: d :: (t ++ b)) in H.
    rewrite nlnl_free_cons2 in H. apply andb_prop in H as [H1 H2].
    destruct (IH H2) as [H3 H4]. split; [|exact H4].
    rewrite nlnl_free_cons2, H1. exact H3.
Qed.

Lemma nlnl_free_strip (p : str) : nlnl_free p = true -> nlnl_free (strip p) = true.
Proof.
  intros H. unfold strip.
  destruct (lstrip_split p) as (w & Hw & _).
  destruct (rstrip_split (lstrip p)) as (v & Hv & _).
  rewrite Hw in H. apply nlnl_free_app in H as [_ H].
  rewrite Hv in H. apply nlnl_free_app in H as [H _]. exact H.
Qed.

Lemma paragraphs_nlnl_free (text : str) :
  Forall (fun p => nlnl_free p = true) (paragraphs_of text).
Proof.
  unfold paragraphs_of. apply Forall_forall. intros p Hp.
  apply in_map_iff in Hp as (q & <- & Hq).
  apply filter_In in Hq as [Hq _].
  destruct (split_pieces_pair text) as [Hf _].
  rewrite Forall_forall in Hf. apply nlnl_free_strip, Hf, Hq.
Qed.

Lemma rstrip_tail (c d : char) (t : str) :
  rstrip (c :: d :: t) = c :: d :: t -> rstrip (d :: t) = d :: t.
Proof.
  intros H. destruct (rstrip (d :: t)) as [|e r] eqn:E.
  - exfalso. pose proof (rstrip_length (d :: t)) as L.
    assert (Hc : rstrip (c :: d :: t) = if isspace c then [] else [c]).
    { change (rstrip (c :: d :: t))
        with (match rstrip (d :: t) with
              | [] => if isspace c then [] else [c]
              | r => c :: r
              end).
      rewrite E. reflexivity. }
    rewrite Hc in H. destruct (isspace c); discriminate.
  - rewrite rstrip_cons in H by congruence. rewrite E in H.
    congruence.
Qed.

Lemma sep_free_trimmed (p : str) :
  nlnl_free p = true -> rstrip p = p -> sep_free p = true.
Proof.
  induction p as [|c t IH]; intros Hn Hr; [reflexivity|].
  destruct t as [|d t].
  - cbn [sep_free]. assert (Hc : isspace c = false)
      by (apply (rstrip_last [c] [] c Hr)).
    destruct (N.eqb_spec c NL) as [->|_]; [discriminate | reflexivity].
  - rewrite nlnl_free_cons2 in Hn. apply andb_prop in Hn as [H1 H2].
    rewrite sep_free_cons2, H1. apply IH; [exact H2|].
    apply (rstrip_tail c d t Hr).
Qed.

Lemma split_single (p : str) : sep_free p = true -> split_nlnl p = [p].
Proof.
  induction p as [|c t IH]; intros H; [reflexivity|].
  destruct t as [|d t]; [reflexivity|].
  rewrite sep_free_cons2 in H. apply andb_prop in H as [H1 H2].
  rewrite split_nlnl_cons. apply negb_true_iff in H1. rewrite H1.
  rewrite (IH H2). reflexivity.
Qed.

Lemma split_app_sep (p rest : str) :
  sep_free p = true ->
  split_nlnl (p ++ SEP ++ rest) = p :: split_nlnl rest.
Proof.
  induction p as [|c t IH]; intros H; [reflexivity|].
  destruct t as [|d t].
  - cbn [sep_free] in H. apply negb_true_iff in H.
    change ([c] ++ SEP ++ rest) with (c :: NL :: NL :: rest).
    rewrite split_nlnl_cons, H. cbn [andb].
    rewrite split_nlnl_cons. reflexivity.
  - rewrite sep_free_cons2 in H. apply andb_prop in H as [H1 H2].
    apply negb_true_iff in H1.
    change ((c :: d :: t) ++ SEP ++ rest)
      with (c :: d :: (t ++ SEP ++ rest)).
    rewrite split_nlnl_cons, H1.
    change (d :: t ++ SEP ++ rest) with ((d :: t) ++ SEP ++ rest).
    rewrite (IH H2). reflexivity.
Qed.

Lemma split_join (ps : list str) :
  ps <> [] -> Forall (fun p => sep_free p = true) ps ->
  split_nlnl (join SEP ps) = ps.
Proof.
  induction ps as [|p rest IH]; intros Hn Hf; [congruence|].
  inversion Hf as [|? ? Hp Hrest]; subst.
  destruct rest as [|q rest].
  - apply split_single, Hp.
  - change (join SEP (p :: q :: rest)) with (p ++ SEP ++ join SEP (q :: rest)).
    rewrite (split_app_sep p _ Hp), IH; [reflexivity | discriminate | exact Hrest].
Qed.

Lemma keep_trimmed (ps : list str) :
  Forall trimmed ps ->
  map strip (filter (fun p => truthy (strip p)) ps) = ps.
Proof.
  induction ps as [|p rest IH]; intros Hf; [reflexivity|].
  inversion Hf as [|? ? [Hp Hs] Hrest]; subst.
  cbn [filter]. rewrite Hs.
  apply truthy_true in Hp. rewrite Hp. cbn [map]. rewrite Hs, (IH Hrest).
  reflexivity.
Qed.

End Pieces.

(** X1. No paragraph contains the blank-line separator: a paragraph
    never holds two newlines in a row, whatever the text. *)
Theorem paragraphs_hold_no_separator (text : str) :
  Forall (fun p => forall pre post, p <> pre ++ SEP ++ post)
         (paragraphs_of text).
Proof.
  eapply Forall_impl; [|apply paragraphs_nlnl_free].
  intros p Hp pre post E. rewrite E in Hp.
  apply nlnl_free_app in Hp as [_ Hp]. discriminate Hp.
Qed.

(** X2. Joining the paragraphs of a text with the separator and taking
    the paragraphs of the result gives the same paragraphs. *)
Theorem paragraphs_roundtrip (text : str) :
  paragraphs_of (join SEP (paragraphs_of text)) = paragraphs_of text.
Proof.
  pose proof (paragraphs_trimmed text) as Ht.
  pose proof (paragraphs_nlnl_free text) as Hn.
  destruct (paragraphs_of text) as [|p rest] eqn:E; [reflexivity|].
  unfold paragraphs_of at 1. rewrite split_join.
  - apply keep_trimmed, Ht.
  - discriminate.
  - rewrite Forall_forall in *. intros q Hq.
    apply sep_free_trimmed; [apply Hn, Hq|].
    apply trimmed_rstrip, (Ht q Hq).
Qed.

Section Visible.

Lemma visible_app (a b : str) : visible (a ++ b) = visible a ++ visible b.
Proof. apply filter_app. Qed.

Lemma visible_all_space (w : str) : all_space w -> visible w = [].
Proof.
  unfold all_space, visible. induction w as [|c t IH]; [reflexivity|].
  cbn [forallb filter]. intros H. apply andb_prop in H as [Hc Ht].
  rewrite Hc. cbn [negb]. apply IH, Ht.
Qed.

Lemma visible_lstrip (s : str) : visible (lstrip s) = visible s.
Proof.
  destruct (lstrip_split s) as (w & Hw & Hs).
  rewrite Hw at 2. rewrite visible_app, (visible_all_space w Hs). reflexivity.
Qed.

Lemma visible_rstrip (s : str) : visible (rstrip s) = visible s.
Proof.
  destruct (rstrip_split s) as (w & Hw & Hs).
  rewrite Hw at 2. rewrite visible_app, (visible_all_space w Hs).
  now rewrite app_nil_r.
Qed.

Lemma visible_strip (s : str) : visible (strip s) = visible s.
Proof. unfold strip. now rewrite visible_rstrip, visible_lstrip. Qed.

Lemma visible_cons_space (c : char) (s : str) :
  isspace c = true -> visible (c :: s) = visible s.
Proof. intros H. unfold visible. cbn [filter]. now rewrite H. Qed.

Lemma visible_cons_mark (c : char) (s : str) :
  isspace c = false -> visible (c :: s) = c :: visible s.
Proof. intros H. unfold visible. cbn [filter]. now rewrite H. Qed.

Lemma visible_emit_newlines (run : nat) : visible (emit_newlines run) = [].
Proof.
  apply visible_all_space, all_space_forall. intros c Hc.
  apply in_emit_newlines in Hc. subst c. reflexivity.
Qed.

Lemma visible_replace_char (s : str) :
  visible (replace_char CR NL s) = visible s.
Proof.
  induction s as [|c t IH]; [reflexivity|].
  unfold replace_char in *. cbn [map].
  destruct (N.eqb_spec c CR) as [->|Hc].
  - rewrite !visible_cons_space by reflexivity. exact IH.
  - destruct (isspace c) eqn:E.
    + rewrite !visible_cons_space by exact E. exact IH.
    + rewrite !visible_cons_mark by exact E. now rewrite IH.
Qed.

Lemma visible_sub_newlines (s : str) : forall run,
  visible (sub_newlines run s) = visible s.
Proof.
  induction s as [|c t IH]; intros run; cbn [sub_newlines].
  - apply visible_emit_newlines.
  - destruct (N.eqb_spec c NL) as [->|Hc].
    + rewrite IH. symmetry. apply visible_cons_space. reflexivity.
    + rewrite visible_app, visible_emit_newlines. cbn [app].
      destruct (isspace c) eqn:E.
      * rewrite !visible_cons_space by exact E. apply IH.
      * rewrite !visible_cons_mark by exact E. now rewrite IH.
Qed.

Lemma is_hspace_space (c : char) : is_hspace c = true -> isspace c = true.
Proof.
  unfold is_hspace. intros H. apply orb_prop in H as [H|H];
    apply N.eqb_eq in H; subst c; reflexivity.
Qed.

Lemma visible_sub_hspace (s : str) : forall b,
  visible (sub_hspace b s) = visible s.
Proof.
  induction s as [|c t IH]; intros b; [reflexivity|]. cbn [sub_hspace].
  destruct (is_hspace c) eqn:E.
  - apply is_hspace_space in E.
    rewrite (visible_cons_space c t E).
    destruct b; [apply IH|].
    rewrite visible_cons_space by reflexivity. apply IH.
  - destruct (isspace c) eqn:E'.
    + rewrite !visible_cons_space by exact E'. apply IH.
    + rewrite !visible_cons_mark by exact E'. now rewrite IH.
Qed.

Lemma visible_normalize (x : str) : visible (normalize_text x) = visible x.
Proof.
  unfold normalize_text.
  rewrite visible_strip, visible_sub_hspace, visible_sub_newlines.
  apply visible_replace_char.
Qed.

Lemma concat_push (c : char) (pieces : list str) :
  pieces <> [] -> concat (push c pieces) = c :: concat pieces.
Proof. destruct pieces; [congruence | reflexivity]. Qed.

Lemma visible_split_pair (s : str) :
  visible (concat (split_nlnl s)) = visible s
  /\ forall c, visible (concat (split_nlnl (c :: s))) = visible (c :: s).
Proof.
  induction s as [|d u [IH1 IH2]].
  - split; [reflexivity|]. intros c.
    change (split_nlnl [c]) with [[c]]. cbn [concat].
    now rewrite app_nil_r.
  - split; [apply IH2|]. intros c. rewrite split_nlnl_cons.
    destruct ((c =? NL) && (d =? NL))%N eqn:E.
    + apply andb_prop in E as [Ec Ed].
      apply N.eqb_eq in Ec. apply N.eqb_eq in Ed. subst c d.
      cbn [concat app]. rewrite IH1.
      rewrite !visible_cons_space by reflexivity. reflexivity.
    + rewrite concat_push by apply split_nlnl_nonempty.
      destruct (isspace c) eqn:E'.
      * rewrite !visible_cons_space by exact E'. apply IH2.
      * rewrite !visible_cons_mark by exact E'. now rewrite IH2.
Qed.

Lemma visible_kept (pieces : list str) :
  visible (concat (map strip (filter (fun p => truthy (strip p)) pieces)))
  = visible (concat pieces).
Proof.
  induction pieces as [|p rest IH]; [reflexivity|].
  cbn [filter concat]. rewrite visible_app.
  destruct (truthy (strip p)) eqn:E.
  - cbn [map concat]. rewrite visible_app, visible_strip, IH. reflexivity.
  - rewrite IH. apply truthy_false in E.
    rewrite <- (visible_strip p), E. reflexivity.
Qed.

Lemma visible_paragraphs (text : str) :
  visible (concat (paragraphs_of text)) = visible text.
Proof.
  unfold paragraphs_of. rewrite visible_kept. apply visible_split_pair.
Qed.

Lemma visible_nil_space (s : str) : visible s = [] -> all_space s.
Proof.
  unfold visible, all_space. induction s as [|c t IH]; [reflexivity|].
  cbn [filter forallb]. destruct (isspace c); cbn [negb andb];
    [exact IH | discriminate].
Qed.

End Visible.

(** X3. Normalizing a text changes its whitespace only: the characters
    that are not whitespace come out the same, in the same order. *)
Theorem normalize_text_keeps_visible (x : str) :
  visible (normalize_text x) = visible x.
Proof.
  unfold normalize_text.
  rewrite visible_strip, visible_sub_hspace, visible_sub_newlines.
  apply visible_replace_char.
Qed.

(** X4. Cutting a text into paragraphs loses no character that is not
    whitespace and adds none: the paragraphs, one after the other, hold
    the visible characters of the text in order. *)
Theorem paragraphs_keep_visible (x : str) :
  visible (concat (paragraphs_of (normalize_text x))) = visible x.
Proof. rewrite visible_paragraphs. apply visible_normalize. Qed.

Section Lengths.

Lemma emit_newlines_length (run : nat) :
  (length (emit_newlines run) <= run)%nat.
Proof.
  unfold emit_newlines. destruct (Nat.leb_spec 3 run).
  - simpl. lia.
  - rewrite repeat_length. lia.
Qed.

Lemma sub_newlines_length (s : str) : forall run,
  (length (sub_newlines run s) <= run + length s)%nat.
Proof.
  induction s as [|c t IH]; intros run; cbn [sub_newlines length].
  - pose proof (emit_newlines_length run). lia.
  - destruct (c =? NL)%N.
    + specialize (IH (S run)). lia.
    + rewrite length_app. cbn [length].
      pose proof (emit_newlines_length run). specialize (IH 0%nat). lia.
Qed.

Lemma sub_hspace_length (s : str) : forall b,
  (length (sub_hspace b s) <= length s)%nat.
Proof.
  induction s as [|c t IH]; intros b; cbn [sub_hspace length]; [lia|].
  destruct (is_hspace c).
  - destruct b; cbn [length]; specialize (IH true); lia.
  - cbn [length]. specialize (IH false). lia.
Qed.

Lemma normalize_length (x : str) : len (normalize_text x) <= len x.
Proof.
  unfold normalize_text. cbv zeta.
  set (a := replace_char CR NL x).
  set (b := sub_newlines 0 a).
  set (c := sub_hspace false b).
  pose proof (strip_length c) as H1.
  pose proof (sub_hspace_length b false) as H2. fold c in H2.
  pose proof (sub_newlines_length a 0) as H3. fold b in H3.
  assert (H4 : length a = length x) by apply length_map.
  unfold len in *. lia.
Qed.

(** The length of the paragraphs with a separator before each. *)
Lemma join_weight (ps : list str) :
  ps <> [] ->
  (length (join SEP ps) + 2 = length (concat (map (app SEP) ps)))%nat.
Proof.
  destruct ps as [|p g]; [congruence|]. intros _.
  rewrite join_cons. cbn [map concat]. rewrite !length_app.
  change (length SEP) with 2%nat. lia.
Qed.

Lemma kept_weight (pieces : list str) :
  (length (concat (map (app SEP)
             (map strip (filter (fun p => truthy (strip p)) pieces))))
   <= length (concat (map (app SEP) pieces)))%nat.
Proof.
  induction pieces as [|p rest IH]; [reflexivity|].
  cbn [filter]. destruct (truthy (strip p)); cbn [map concat];
    rewrite ?length_app.
  - pose proof (strip_length p) as L. unfold len in L. lia.
  - lia.
Qed.

Lemma paragraphs_join_length (text : str) :
  len (join SEP (paragraphs_of text)) <= len text.
Proof.
  unfold len. destruct (paragraphs_of text) as [|p g] eqn:E.
  - simpl. lia.
  - pose proof (join_weight (p :: g)) as H1.
    rewrite <- E in H1 |- *.
    pose proof (kept_weight (split_nlnl text)) as H2.
    fold (paragraphs_of text) in H2.
    pose proof (join_weight (split_nlnl text) (split_nlnl_nonempty text)) as H3.
    destruct (join_split_pair text) as [H4 _]. rewrite H4 in H3.
    rewrite E in H1 at 1. specialize (H1 ltac:(discriminate)). lia.
Qed.

End Lengths.

(** X5. Normalizing never makes a text longer. *)
Theorem normalize_text_not_longer (x : str) :
  len (normalize_text x) <= len x.
Proof.
  pose proof (normalize_length x) as H. exact H.
Qed.

Section ChunkCount.

Variables m o : Z.

Lemma buffers_count (ps : list str) : forall cur,
  (length (buffers m o ps cur)
   <= length ps + if truthy cur then 1 else 0)%nat.
Proof.
  induction ps as [|p rest IH]; intros cur; cbn [buffers length].
  - destruct (truthy (strip cur)) eqn:E; cbn [length]; [|lia].
    destruct cur; [discriminate | cbn [truthy]; lia].
  - assert (Ha : forall c, truthy (append_para c p) = true
                           \/ append_para c p = [])
      by (intros c; destruct (append_para c p); auto).
    destruct ((len cur + len p + 2 >? m) && truthy cur) eqn:E.
    + apply andb_prop in E as [_ E]. rewrite E. cbn [length].
      specialize (IH (append_para (seed_of o cur) p)).
      destruct (truthy (append_para (seed_of o cur) p)); lia.
    + specialize (IH (append_para cur p)).
      assert (Hc : truthy (append_para cur p) = true -> truthy cur = true
                   \/ True) by auto.
      destruct (truthy (append_para cur p)); destruct (truthy cur); lia.
Qed.

Lemma raw_buffers_length (groups : list (list str)) : forall b,
  length (raw_buffers o b groups) = S (length groups).
Proof.
  induction groups as [|g rest IH]; intros b; [reflexivity|].
  cbn [raw_buffers length]. rewrite IH. reflexivity.
Qed.

Lemma buffers_all_fit (rest : list str) : forall cur,
  good cur -> Forall trimmed rest ->
  len (fold_left append_para rest cur) <= m ->
  buffers m o rest cur = [fold_left append_para rest cur].
Proof.
  induction rest as [|q rest IH]; intros cur Hc Hr Hl.
  - cbn [buffers fold_left]. destruct (good_strip cur Hc) as [_ Hn].
    apply truthy_true in Hn. now rewrite Hn.
  - inversion Hr as [|? ? Hq Hrest]; subst.
    cbn [buffers fold_left] in *.
    assert (Hg : good (append_para cur q)) by (apply good_append, Hq).
    assert (Hlen : len cur + len q + 2 <= m).
    { rewrite fold_append in Hl by apply Hg.
      rewrite len_app in Hl. unfold append_para in Hl.
      destruct Hc as [Hc _]. apply truthy_true in Hc. rewrite Hc in Hl.
      rewrite !len_app in Hl. change (len SEP) with 2 in Hl.
      unfold len in *. lia. }
    destruct (Z.gtb_spec (len cur + len q + 2) m); [lia|].
    cbn [andb]. apply IH; assumption.
Qed.

End ChunkCount.

(** X6. There are never more chunks than paragraphs, and there is a
    chunk as soon as there is a paragraph. *)
Theorem chunk_count (text : str) (max_chunk_size overlap : Z) :
  (length (split_into_chunks text max_chunk_size overlap)
   <= length (paragraphs_of (normalize_text text)))%nat
  /\ (split_into_chunks text max_chunk_size overlap = []
      <-> paragraphs_of (normalize_text text) = []).
Proof.
  rewrite split_into_chunks_buffers.
  pose proof (paragraphs_trimmed (normalize_text text)) as Ht.
  split.
  - rewrite length_map.
    pose proof (buffers_count max_chunk_size overlap
                  (paragraphs_of (normalize_text text)) []) as H.
    cbn [truthy] in H. lia.
  - destruct (paragraphs_of (normalize_text text)) as [|p rest].
    + split; reflexivity.
    + destruct (chunks_by_groups max_chunk_size overlap p rest Ht)
        as (g & groups & _ & _ & _ & E & _).
      rewrite E. split; [|discriminate].
      intros H. apply (f_equal (@length str)) in H.
      rewrite length_map, raw_buffers_length in H. discriminate H.
Qed.

(** X7. A text that is not blank and no longer than [max_chunk_size]
    gives exactly one chunk: its paragraphs joined by the separator,
    whatever the overlap. *)
Theorem short_text_single_chunk (text : str) (max_chunk_size overlap : Z) :
  normalize_text text <> [] ->
  len text <= max_chunk_size ->
  split_into_chunks text max_chunk_size overlap
  = [join SEP (paragraphs_of (normalize_text text))].
Proof.
  intros Hn Hl.
  rewrite split_into_chunks_buffers.
  pose proof (paragraphs_trimmed (normalize_text text)) as Ht.
  pose proof (paragraphs_join_length (normalize_text text)) as Hj.
  pose proof (normalize_length text) as Hx.
  pose proof (visible_paragraphs (normalize_text text)) as Hv.
  destruct (paragraphs_of (normalize_text text)) as [|p rest].
  - exfalso. apply Hn. cbn in Hv. symmetry in Hv.
    apply visible_nil_space, strip_all_space in Hv.
    rewrite normalize_stripped in Hv. exact Hv.
  - inversion Ht as [|? ? Hp Hrest]; subst.
    assert (E : fold_left append_para rest p = join SEP (p :: rest)).
    { change (fold_left append_para rest p)
        with (fold_left append_para (p :: rest) []).
      rewrite fold_join by (assumption || discriminate). reflexivity. }
    cbn [buffers truthy]. rewrite andb_false_r.
    change (append_para [] p) with p.
    rewrite buffers_all_fit; try assumption.
    + rewrite E. cbn [map]. f_equal.
      apply (join_trimmed (p :: rest) Ht). discriminate.
    + apply trimmed_good, Hp.
    + rewrite E. lia.
Qed.

(** X7 at a text of two paragraphs under the default configuration. *)
Lemma short_text_single_chunk_witness :
  split_into_chunks text_space_tail 800 200
  = [join SEP (paragraphs_of (normalize_text text_space_tail))].
Proof.
  apply (short_text_single_chunk text_space_tail 800 200).
  - vm_compute. discriminate.
  - vm_compute. discriminate.
Defined.

Section NoOverlap.

Variables m o : Z.

Lemma chunks_grouping (text : str) :
  exists groups : list (list str),
    concat groups = paragraphs_of (normalize_text text)
    /\ Forall (fun g => g <> []) groups
    /\ Forall (Forall trimmed) groups
    /\ split_into_chunks text m o = assemble o [] groups.
Proof.
  rewrite split_into_chunks_buffers.
  pose proof (paragraphs_trimmed (normalize_text text)) as Ht.
  destruct (paragraphs_of (normalize_text text)) as [|p rest].
  - exists []. repeat split; constructor.
  - destruct (chunks_by_groups m o p rest Ht)
      as (g & groups & E1 & E2 & E3 & E4 & E5).
    assert (Hpg : Forall trimmed (p :: g)).
    { inversion Ht as [|? ? Hp Hrest]; subst. constructor; [exact Hp|].
      apply Forall_app in Hrest as [Hg _]; exact Hg. }
    assert (HJ : trimmed (join SEP (p :: g)))
      by (apply join_trimmed; [exact Hpg | discriminate]).
    exists ((p :: g) :: groups). repeat split.
    + simpl. now rewrite E1.
    + constructor; [discriminate | exact E2].
    + constructor; assumption.
    + rewrite E4, strip_raw_buffers by assumption.
      cbn [assemble]. rewrite seed_of_nil.
      unfold overlap_prefix, append_para. cbn [truthy app].
      rewrite (proj2 HJ). reflexivity.
Qed.

Lemma seed_of_no_overlap (b : str) : o <= 0 -> seed_of o b = [].
Proof.
  intros H. unfold seed_of. destruct (Z.gtb_spec o 0); [lia | reflexivity].
Qed.

Lemma assemble_no_overlap (groups : list (list str)) : forall prev,
  o <= 0 -> assemble o prev groups = map (join SEP) groups.
Proof.
  induction groups as [|g rest IH]; intros prev H; [reflexivity|].
  cbn [assemble map]. rewrite seed_of_no_overlap by exact H.
  rewrite IH by exact H. reflexivity.
Qed.

Lemma join_app (a b : list str) :
  a <> [] -> b <> [] ->
  join SEP (a ++ b) = join SEP a ++ SEP ++ join SEP b.
Proof.
  induction a as [|p a IH]; intros Ha Hb; [congruence|].
  destruct a as [|q a].
  - destruct b; [congruence | reflexivity].
  - change (join SEP ((p :: q :: a) ++ b))
      with (p ++ SEP ++ join SEP ((q :: a) ++ b)).
    rewrite IH by (discriminate || exact Hb).
    change (join SEP (p :: q :: a)) with (p ++ SEP ++ join SEP (q :: a)).
    rewrite <- !app_assoc. reflexivity.
Qed.

Lemma join_groups (groups : list (list str)) :
  Forall (fun g => g <> []) groups ->
  join SEP (map (join SEP) groups) = join SEP (concat groups).
Proof.
  induction groups as [|g rest IH]; intros H; [reflexivity|].
  inversion H as [|? ? Hg Hrest]; subst.
  destruct rest as [|g' rest].
  - cbn [map concat join]. now rewrite app_nil_r.
  - change (join SEP (map (join SEP) (g :: g' :: rest)))
      with (join SEP g ++ SEP ++ join SEP (map (join SEP) (g' :: rest))).
    rewrite (IH Hrest).
    change (concat (g :: g' :: rest)) with (g ++ concat (g' :: rest)).
    rewrite (join_app g (concat (g' :: rest))); [reflexivity | exact Hg|].
    inversion Hrest as [|? ? Hg' _]; subst.
    destruct g'; [congruence | discriminate].
Qed.

End NoOverlap.

(** X8. Without overlap ([overlap <= 0]) the chunks joined by the
    separator are the paragraphs joined by the separator: no text is
    repeated and none is lost. *)
Theorem no_overlap_chunks_join (text : str) (max_chunk_size overlap : Z) :
  overlap <= 0 ->
  join SEP (split_into_chunks text max_chunk_size overlap)
  = join SEP (paragraphs_of (normalize_text text)).
Proof.
  intros Ho.
  destruct (chunks_grouping max_chunk_size overlap text)
    as (groups & E1 & E2 & _ & E4).
  rewrite E4, (assemble_no_overlap overlap groups [] Ho), <- E1.
  apply join_groups, E2.
Qed.

(** X8 at a text cut into two chunks. *)
Lemma no_overlap_chunks_join_witness :
  join SEP (split_into_chunks text_two_short 10 0)
  = join SEP (paragraphs_of (normalize_text text_two_short)).
Proof.
  apply (no_overlap_chunks_join text_two_short 10 0). discriminate.
Defined.

(** X9. Without overlap the size bound is strict but for a paragraph
    that is itself too long: every chunk is at most [max_chunk_size]
    long, or is one paragraph longer than that. *)
Theorem no_overlap_size_bound (text : str) (max_chunk_size overlap : Z) :
  overlap <= 0 ->
  Forall (fun c => len c <= max_chunk_size
                   \/ (In c (paragraphs_of (normalize_text text))
                       /\ max_chunk_size < len c))
         (split_into_chunks text max_chunk_size overlap).
Proof.
  intros Ho. rewrite split_into_chunks_buffers.
  set (ps := paragraphs_of (normalize_text text)).
  apply Forall_map.
  assert (Hfit : Forall (fits max_chunk_size overlap ps)
                   (buffers max_chunk_size overlap ps [])).
  { apply buffers_fit; [auto | left; reflexivity]. }
  eapply Forall_impl; [|exact Hfit].
  intros b Hb. pose proof (strip_length b) as L.
  destruct (Z.le_gt_cases (len (strip b)) max_chunk_size) as [Hle|Hgt];
    [left; exact Hle | right].
  destruct Hb as [Hb|(p & Hp & [->|(Hpos & _)])]; [lia | | lia].
  pose proof (paragraphs_trimmed (normalize_text text)) as Ht.
  rewrite Forall_forall in Ht. destruct (Ht p Hp) as [_ Hs].
  rewrite Hs in *. split; [exact Hp | lia].
Qed.

(** X9 at a text whose second paragraph is longer than the bound. *)
Lemma no_overlap_size_bound_witness :
  Forall (fun c => len c <= 7
                   \/ (In c (paragraphs_of (normalize_text text_two_short))
                       /\ 7 < len c))
         (split_into_chunks text_two_short 7 0).
Proof.
  apply (no_overlap_size_bound text_two_short 7 0). discriminate.
Defined.

(** * More on the prompt *)

Section PromptTail.

Lemma slice_from_tail (p : str) (n : Z) :
  0 < n -> n < len p ->
  slice_from p (- n) = skipn (length p - Z.to_nat n) p.
Proof.
  intros H1 H2. unfold slice_from, len in *.
  destruct (Z.ltb_spec (- n) 0); [|lia].
  f_equal. lia.
Qed.

Lemma trim_prompt_cases (p : str) (n : Z) :
  0 < n ->
  (len p <= n /\ trim_prompt p n = p)
  \/ (n < len p /\ trim_prompt p n = skipn (length p - Z.to_nat n) p).
Proof.
  intros Hn. unfold trim_prompt.
  destruct (Z.leb_spec (len p) n); [left | right]; split; try lia;
    [reflexivity | apply slice_from_tail; lia].
Qed.

Lemma build_prompt_tail (chunks : list str) (hist : list ChatMessage)
    (q : str) :
  exists before,
    build_prompt chunks hist q = before ++ q ++ [NL; NL] ++ lit "Answer:".
Proof.
  exists (lit "You are a helpful customer-support chatbot." ++ [NL]
          ++ INSTRUCTION ++ [NL]
          ++ lit "If the answer is not in the context, say you don't know."
          ++ [NL; NL] ++ lit "Conversation history:" ++ [NL]
          ++ concat (map render_message hist)
          ++ [NL; NL] ++ lit "Context documents:" ++ [NL]
          ++ join [NL; NL] chunks
          ++ [NL; NL] ++ lit "User question:" ++ [NL]).
  rewrite build_prompt_pieces, <- !app_assoc. reflexivity.
Qed.

End PromptTail.

(** X10. For a bound above zero the trimmed prompt is an end of the
    prompt and is at most [max_chars] long. *)
Theorem trim_prompt_suffix_bound (prompt : str) (max_chars : Z) :
  0 < max_chars ->
  suffix_of (trim_prompt prompt max_chars) prompt
  /\ len (trim_prompt prompt max_chars) <= max_chars.
Proof.
  intros Hn.
  destruct (trim_prompt_cases prompt max_chars Hn) as [[H E]|[H E]];
    rewrite E.
  - split; [exists []; reflexivity | exact H].
  - split.
    + exists (firstn (length prompt - Z.to_nat max_chars) prompt).
      symmetry. apply firstn_skipn.
    + unfold len in *. rewrite length_skipn. lia.
Qed.

(** X10 at a prompt of three characters and the bound two. *)
Lemma trim_prompt_suffix_bound_witness :
  suffix_of (trim_prompt (lit "abc") 2) (lit "abc")
  /\ len (trim_prompt (lit "abc") 2) <= 2.
Proof. apply (trim_prompt_suffix_bound (lit "abc") 2). reflexivity. Defined.

(** X11. Trimming a built prompt never cuts the question: when the
    question and the nine characters that follow it fit in
    [max_chars], the trimmed prompt still ends with the question, two
    newlines and [Answer:]. *)
Theorem trimmed_prompt_keeps_question (retrieved_chunks : list str)
    (chat_history : list ChatMessage) (user_question : str)
    (max_chars : Z) :
  len user_question + 9 <= max_chars ->
  suffix_of (user_question ++ [NL; NL] ++ lit "Answer:")
    (trim_prompt (build_prompt retrieved_chunks chat_history user_question)
                 max_chars).
Proof.
  intros Hq.
  destruct (build_prompt_tail retrieved_chunks chat_history user_question)
    as (before & E).
  set (tail := user_question ++ [NL; NL] ++ lit "Answer:") in *.
  assert (Lt : len tail = len user_question + 9).
  { unfold tail. rewrite !len_app. reflexivity. }
  assert (Hn : 0 < max_chars) by (unfold len in *; lia).
  rewrite E.
  destruct (trim_prompt_cases (before ++ tail) max_chars Hn)
    as [[H E']|[H E']]; rewrite E'.
  - exists before. reflexivity.
  - exists (skipn (length (before ++ tail) - Z.to_nat max_chars) before).
    rewrite skipn_app.
    replace (length (before ++ tail) - Z.to_nat max_chars - length before)%nat
      with 0%nat; [reflexivity|].
    rewrite length_app. unfold len in *. lia.
Qed.

(** X11 at the question [Q] and the bound ten. *)
Lemma trimmed_prompt_keeps_question_witness :
  suffix_of (lit "Q" ++ [NL; NL] ++ lit "Answer:")
    (trim_prompt (build_prompt [] [] (lit "Q")) 10).
Proof.
  apply (trimmed_prompt_keeps_question [] [] (lit "Q") 10). reflexivity.
Defined.

(** * The services *)

Section ServiceFacts.

Variable W : Type.
Variable ollama_post : str -> Json -> Z -> Eff W Response.

Lemma embed_loop_step (text : str) (rest : list str) (acc : list Json)
    (w : W) :
  embed_loop W ollama_post (text :: rest) acc w
  = match embed_one ollama_post text w with
    | (inl e, w') => (inl e, w')
    | (inr emb, w') => embed_loop W ollama_post rest (acc ++ [emb]) w'
    end.
Proof.
  cbn [embed_loop]. unfold embed_one, bind, lift, raise_for_status.
  destruct (ollama_post _ _ _ w) as [[e|resp] w1]; [reflexivity|].
  destruct ((400 <=? status_code resp) && (status_code resp <? 600));
    unfold raise, ret; [reflexivity|].
  destruct (json resp) as [e|data]; [reflexivity|].
  destruct (getitem_key data (lit "embedding")); reflexivity.
Qed.

Lemma embed_loop_acc (texts : list str) : forall acc w,
  embed_loop W ollama_post texts acc w
  = match embed_loop W ollama_post texts [] w with
    | (inl e, w') => (inl e, w')
    | (inr v, w') => (inr (acc ++ v), w')
    end.
Proof.
  induction texts as [|t rest IH]; intros acc w.
  - cbn [embed_loop]. unfold ret. now rewrite app_nil_r.
  - rewrite !embed_loop_step.
    destruct (embed_one ollama_post t w) as [[e|emb] w1]; [reflexivity|].
    rewrite (IH (acc ++ [emb])), (IH ([] ++ [emb])).
    destruct (embed_loop W ollama_post rest [] w1) as [[e|v] w2];
      [reflexivity|].
    now rewrite <- app_assoc.
Qed.


End ServiceFacts.


(** X13. Embedding a list of texts is embedding its first part, then
    its second part in the world the first left, and joining the
    results; when the first part fails nothing of the second is
    posted. *)
Theorem embed_texts_app (W : Type)
    (ollama_post : str -> Json -> Z -> Eff W Response)
    (a b : list str) (w : W) :
  embed_texts W ollama_post (a ++ b) w
  = then_append (embed_texts W ollama_post a)
                (embed_texts W ollama_post b) w.
Proof.
  unfold embed_texts, then_append, bind, ret.
  revert w. induction a as [|t a IH]; intros w.
  - cbn [app embed_loop]. unfold ret.
    destruct (embed_loop W ollama_post b [] w) as [[e|v] w1]; reflexivity.
  - change ((t :: a) ++ b) with (t :: (a ++ b)).
    rewrite !embed_loop_step.
    destruct (embed_one ollama_post t w) as [[e|emb] w1]; [reflexivity|].
    rewrite (embed_loop_acc W ollama_post (a ++ b) ([] ++ [emb])), IH.
    rewrite (embed_loop_acc W ollama_post a ([] ++ [emb])).
    destruct (embed_loop W ollama_post a [] w1) as [[e|va] w2];
      [reflexivity|].
    destruct (embed_loop W ollama_post b [] w2) as [[e|vb] w3];
      [reflexivity|].
    now rewrite <- app_assoc.
Qed.

Section PointFacts.

Lemma fold_points (chatbot_id filename : str)
    (l : list (Z * (Json * str))) : forall acc,
  fold_left
    (fun points '(idx, (vector, text)) =>
       points ++ [{| id := idx; vector := vector;
                     payload := {| p_chatbot_id := chatbot_id;
                                   p_filename := filename;
                                   p_text := text |} |}]) l acc
  = acc ++ map (fun x =>
                  {| id := fst x; vector := fst (snd x);
                     payload := {| p_chatbot_id := chatbot_id;
                                   p_filename := filename;
                                   p_text := snd (snd x) |} |}) l.
Proof.
  induction l as [|[idx [v t]] l IH]; intros acc; cbn [fold_left map].
  - now rewrite app_nil_r.
  - rewrite IH, <- app_assoc. reflexivity.
Qed.

Lemma nth_error_combine {A B : Type} (a : list A) : forall (b : list B) i,
  nth_error (combine a b) i
  = match nth_error a i, nth_error b i with
    | Some x, Some y => Some (x, y)
    | _, _ => None
    end.
Proof.
  induction a as [|x a IH]; intros b i.
  - destruct i; reflexivity.
  - destruct b as [|y b].
    + destruct i; cbn [combine nth_error]; [reflexivity|].
      destruct (nth_error a i); reflexivity.
    + destruct i; cbn [combine nth_error]; [reflexivity | apply IH].
Qed.

Lemma nth_error_seq_from (n : nat) : forall start i,
  nth_error (seq start n) i
  = if (i <? n)%nat then Some (start + i)%nat else None.
Proof.
  induction n as [|n IH]; intros start i.
  - destruct i; reflexivity.
  - destruct i; cbn [seq nth_error].
    + now rewrite Nat.add_0_r.
    + rewrite IH. change (S i <? S n)%nat with (i <? n)%nat.
      destruct (i <? n)%nat; [f_equal; lia | reflexivity].
Qed.

Lemma nth_error_enumerate {A : Type} (l : list A) (i : nat) :
  nth_error (enumerate l) i
  = match nth_error l i with
    | Some x => Some (Z.of_nat i, x)
    | None => None
    end.
Proof.
  unfold enumerate. rewrite nth_error_combine, nth_error_map.
  rewrite nth_error_seq_from.
  destruct (nth_error l i) as [x|] eqn:E.
  - assert (H : (i < length l)%nat)
      by (apply nth_error_Some; congruence).
    apply Nat.ltb_lt in H. rewrite H. reflexivity.
  - destruct (i <? length l)%nat; reflexivity.
Qed.

End PointFacts.

(** X14. Two chatbots have the same collection exactly when they are
    the same chatbot. *)
Theorem collection_name_injective (a b : str) :
  get_collection_name a = get_collection_name b <-> a = b.
Proof.
  unfold get_collection_name. split.
  - apply app_inv_head.
  - intros ->. reflexivity.
Qed.

(** X15. The points built for a document: point [i] has the id [i],
    the [i]-th embedding and the [i]-th chunk, under the chatbot and
    file name given; there is no point past the shorter of the two
    lists. *)
Theorem make_points_nth (chatbot_id filename : str)
    (embeddings : list Json) (chunks : list str) (i : nat) :
  nth_error (make_points chatbot_id filename embeddings chunks) i
  = match nth_error embeddings i, nth_error chunks i with
    | Some v, Some t =>
        Some {| id := Z.of_nat i; vector := v;
                payload := {| p_chatbot_id := chatbot_id;
                              p_filename := filename; p_text := t |} |}
    | _, _ => None
    end.
Proof.
  unfold make_points. rewrite fold_points. cbn [app]. rewrite nth_error_map, nth_error_enumerate, nth_error_combine.
  destruct (nth_error embeddings i), (nth_error chunks i); reflexivity.
Qed.

Section SearchFacts.

Lemma source_of_text (hit : Hit) :
  source_of hit = if has_text hit then inr (to_source hit)
                  else inl (missing_text hit).
Proof.
  unfold source_of, has_text, missing_text, to_source, getitem_key,
    dict_get, field.
  destruct (hit_payload hit) as [| | | |items|fields]; try reflexivity.
  destruct (lookup (lit "text") fields); [|reflexivity].
  destruct (lookup (lit "filename") fields); reflexivity.
Qed.

Lemma comprehension_sources (hits : list Hit) :
  comprehension source_of hits
  = match find (fun h => negb (has_text h)) hits with
    | None => inr (map to_source hits)
    | Some h => inl (missing_text h)
    end.
Proof.
  induction hits as [|h rest IH]; [reflexivity|].
  cbn [comprehension find map]. rewrite source_of_text, IH.
  destruct (has_text h); cbn [negb]; [|reflexivity].
  destruct (find (fun h => negb (has_text h)) rest); reflexivity.
Qed.



End SearchFacts.

(** X16. [search_similar_chunks] searches the collection of the
    chatbot once and, when every hit has a [text] in its payload,
    returns one entry per hit in the order of the hits, with [None] for
    a missing file name; when a hit has no [text] it raises the error
    of the first such hit (a key error, or a type error when the hit
    has no payload) and returns no entry. *)
Theorem search_similar_chunks_result (W : Type)
    (search : str -> Json -> Z -> Eff W (list Hit))
    (chatbot_id : str) (query_vector : Json) (limit : Z) (w : W) :
  search_similar_chunks W search chatbot_id query_vector limit w
  = match search (COLLECTION_PREFIX ++ chatbot_id) query_vector limit w with
    | (inl e, w') => (inl e, w')
    | (inr hits, w') =>
        match find (fun h => negb (has_text h)) hits with
        | None => (inr (map to_source hits), w')
        | Some h => (inl (missing_text h), w')
        end
    end.
Proof.
  unfold search_similar_chunks, bind, lift, get_collection_name.
  destruct (search _ query_vector limit w) as [[e|hits] w']; [reflexivity|].
  rewrite comprehension_sources.
  destruct (find (fun h => negb (has_text h)) hits); reflexivity.
Qed.

Section Endpoints.

Variable W : Type.
Variable Image : Type.
Variable ollama_post : str -> Json -> Z -> Eff W Response.
Variable get_collections : Eff W (list str).
Variable create_collection : str -> Z -> Distance -> Eff W unit.
Variable upsert : str -> list Point -> Eff W unit.
Variable search : str -> Json -> Z -> Eff W (list Hit).
Variable get_object : str -> str -> Eff W (list N).
Variable convert_from_bytes : list N -> Eff W (list Image).
Variable image_to_string : Image -> Eff W str.
Variable MINIO_BUCKET : str.
Variable GROQ_API_KEY : option str.
Variable groq_post : str -> list (str * str) -> Json -> Z -> Eff W Response.

Lemma blank_text_no_chunks (text : str) (m o : Z) :
  all_space text -> split_into_chunks text m o = [].
Proof.
  intros H. unfold split_into_chunks.
  rewrite (all_space_normalize text H). reflexivity.
Qed.

(** X17. A document whose extracted text is blank: the embedding
    endpoint answers with no chunk, dimension zero and an empty
    preview, while the processing endpoint fails with an index error
    on the first embedding, before any call to the vector index. *)
Theorem blank_document (chatbot_id filename text : str) (w w' : W) :
  extract_text_from_pdf W Image get_object convert_from_bytes
    image_to_string MINIO_BUCKET (chatbot_id ++ lit "/" ++ filename) w
  = (inr text, w') ->
  all_space text ->
  embed_document W Image ollama_post get_object convert_from_bytes
    image_to_string MINIO_BUCKET chatbot_id filename w
  = (inr {| embed_total := 0; embedding_dim := 0;
            embedding_preview := JArr [] |}, w')
  /\ process_document W Image ollama_post get_collections create_collection
       upsert get_object convert_from_bytes image_to_string MINIO_BUCKET
       chatbot_id filename w
     = (inl IndexError, w').
Proof.
  intros Hocr Hblank. split.
  - unfold embed_document, bind. rewrite Hocr.
    rewrite (blank_text_no_chunks text 800 200 Hblank). reflexivity.
  - unfold process_document, bind. rewrite Hocr.
    rewrite (blank_text_no_chunks text 800 200 Hblank). reflexivity.
Qed.


(** X18. Without an API key ([None] or the empty string) [ask_llm]
    raises its runtime error and leaves the world as it was, whatever
    the language-model service: nothing is posted. *)
Theorem ask_llm_without_key (prompt : str) (w : W) :
  key_set GROQ_API_KEY = false ->
  ask_llm W GROQ_API_KEY groq_post prompt w
  = (inl (RuntimeError (lit "GROQ_API_KEY is not set")), w).
Proof.
  intros Hk. unfold ask_llm. unfold key_set in Hk.
  destruct GROQ_API_KEY as [k|]; [|reflexivity].
  rewrite Hk. reflexivity.
Qed.

(** X19. When [ask_llm] returns an answer, a key was set, exactly the
    request with the last 12000 characters of the prompt at most was
    posted, the reply had the status 200, and the answer is the content
    of the message of the first choice of its body. *)
Theorem ask_llm_answer (prompt : str) (w w' : W) (a : Json) :
  ask_llm W GROQ_API_KEY groq_post prompt w = (inr a, w') ->
  exists key response data,
    GROQ_API_KEY = Some key /\ key <> []
    /\ len (trim_prompt prompt 12000) <= 12000
    /\ suffix_of (trim_prompt prompt 12000) prompt
    /\ groq_post GROQ_URL (groq_headers key)
         (groq_body (trim_prompt prompt 12000)) 120 w = (inr response, w')
    /\ status_code response = 200
    /\ json response = inr data
    /\ first_choice_content data = inr a.
Proof.
  unfold ask_llm. destruct GROQ_API_KEY as [k|]; [|discriminate].
  destruct (truthy k) eqn:Ek; [|discriminate].
  unfold bind, lift, raise.
  destruct (groq_post GROQ_URL (groq_headers k)
              (groq_body (trim_prompt prompt 12000)) 120 w)
    as [[e|resp] w1] eqn:Ep; [discriminate|].
  destruct (Z.eqb_spec (status_code resp) 200) as [Es|Es];
    cbn [negb]; [|discriminate].
  destruct (json resp) as [e|data] eqn:Ej; [discriminate|].
  intros H. exists k, resp, data.
  assert (Hw : w1 = w' /\ first_choice_content data = inr a).
  { unfold first_choice_content.
    destruct (getitem_key data (lit "choices")) as [e|choices];
      [discriminate|].
    destruct (getitem_first choices) as [e|choice]; [discriminate|].
    destruct (getitem_key choice (lit "message")) as [e|message];
      [discriminate|].
    destruct (getitem_key message (lit "content")) as [e|c];
      [discriminate|].
    injection H as -> ->. split; reflexivity. }
  destruct Hw as [-> Hc].
  assert (Hpos : 0 < 12000) by reflexivity.
  destruct (trim_prompt_cases prompt 12000 Hpos) as [[L E]|[L E]].
  - repeat split; try assumption.
    + apply truthy_true, Ek.
    + rewrite E. exact L.
    + rewrite E. exists []. reflexivity.
  - repeat split; try assumption.
    + apply truthy_true, Ek.
    + rewrite E. unfold len in *. rewrite length_skipn. lia.
    + rewrite E. exists (firstn (length prompt - Z.to_nat 12000) prompt).
      symmetry. apply firstn_skipn.
Qed.


End Endpoints.

(** X17 at a document of one page that holds two spaces. *)
Lemma blank_document_witness :
  embed_document Log unit ollama_fixed get_object_fixed convert_fixed
    ocr_blank (lit "docs") (lit "bot") (lit "a.pdf") []
  = (inr {| embed_total := 0; embedding_dim := 0;
            embedding_preview := JArr [] |}, [])
  /\ process_document Log unit ollama_fixed (ret [])
       (fun _ _ _ => ret tt) (fun _ _ => ret tt) get_object_fixed
       convert_fixed ocr_blank (lit "docs") (lit "bot") (lit "a.pdf") []
     = (inl IndexError, []).
Proof.
  apply (blank_document Log unit ollama_fixed (ret [])
           (fun _ _ _ => ret tt) (fun _ _ => ret tt) get_object_fixed
           convert_fixed ocr_blank (lit "docs") (lit "bot") (lit "a.pdf")
           (lit "  ") [] []); reflexivity.
Defined.

(** X18 with no key in the environment. *)
Lemma ask_llm_without_key_witness :
  ask_llm Log None groq_fixed (lit "hi") []
  = (inl (RuntimeError (lit "GROQ_API_KEY is not set")), []).
Proof.
  apply (ask_llm_without_key Log None groq_fixed (lit "hi") []).
  reflexivity.
Defined.

(** X19 at a service that answers [hello]. *)
Lemma ask_llm_answer_witness :
  exists key response data,
    Some (lit "k") = Some key /\ key <> []
    /\ len (trim_prompt (lit "hi") 12000) <= 12000
    /\ suffix_of (trim_prompt (lit "hi") 12000) (lit "hi")
    /\ groq_fixed GROQ_URL (groq_headers key)
         (groq_body (trim_prompt (lit "hi") 12000)) 120 []
       = (inr response, [groq_body (lit "hi")])
    /\ status_code response = 200
    /\ json response = inr data
    /\ first_choice_content data = inr (JStr (lit "hello")).
Proof.
  apply (ask_llm_answer Log (Some (lit "k")) groq_fixed (lit "hi") []
           [groq_body (lit "hi")] (JStr (lit "hello"))).
  reflexivity.
Defined.


Section ObjectKeys.

Lemma key_split (a : str) : forall b f g,
  no_slash a -> no_slash b ->
  a ++ lit "/" ++ f = b ++ lit "/" ++ g -> a = b /\ f = g.
Proof.
  unfold no_slash.
  induction a as [|c a IH]; intros b f g Ha Hb E.
  - destruct b as [|d b].
    + injection E as E. auto.
    + exfalso. injection E as E _. apply Hb. left. symmetry. exact E.
  - destruct b as [|d b].
    + exfalso. injection E as E _. apply Ha. left. exact E.
    + injection E as -> E.
      destruct (IH b f g) as [-> ->]; try exact E; [| |auto].
      * intros H; apply Ha; right; exact H.
      * intros H; apply Hb; right; exact H.
Qed.

End ObjectKeys.

Lemma upload_success_key (Storage : Type)
    (put_object : Storage -> str -> str -> list N -> str
                  -> Storage * option str)
    (bucket : str) (minio : Storage) (chatbot_id : str) (f : UploadFile)
    (message id key : str) :
  fst (upload_pdf Storage put_object bucket minio chatbot_id f)
  = Success message id key ->
  key = chatbot_id ++ lit "/" ++ filename f.
Proof.
  unfold upload_pdf.
  destruct (negb (endswith (lower (filename f)) (lit ".pdf")));
    [discriminate|].
  destruct (put_object minio bucket _ (file f) (content_type f))
    as [minio' [e|]]; [discriminate|].
  cbn [fst]. intros H. injection H as _ _ <-. reflexivity.
Qed.

(** X21. The object key of an upload tells the chatbot and the file
    apart as long as chatbot ids hold no [/]: two uploads that succeed
    under the same key are then for the same chatbot and the same file
    name. *)
Theorem object_key_injective (Storage : Type)
    (put_object : Storage -> str -> str -> list N -> str
                  -> Storage * option str)
    (bucket : str) (minio_a minio_b : Storage)
    (chatbot_a chatbot_b : str) (file_a file_b : UploadFile)
    (message_a message_b id_a id_b key : str) :
  no_slash chatbot_a -> no_slash chatbot_b ->
  fst (upload_pdf Storage put_object bucket minio_a chatbot_a file_a)
  = Success message_a id_a key ->
  fst (upload_pdf Storage put_object bucket minio_b chatbot_b file_b)
  = Success message_b id_b key ->
  chatbot_a = chatbot_b /\ filename file_a = filename file_b.
Proof.
  intros Ha Hb Ea Eb.
  apply upload_success_key in Ea. apply upload_success_key in Eb.
  apply (key_split chatbot_a chatbot_b _ _ Ha Hb). congruence.
Qed.

(** X21 at two uploads of the same file for the same chatbot. *)
Lemma object_key_injective_witness :
  lit "bot7" = lit "bot7" /\ lit "Manual.PDF" = lit "Manual.PDF".
Proof.
  apply (object_key_injective MemStorage mem_put (lit "docs") []
           [(lit "docs", lit "bot7/Manual.PDF", [37%N])]
           (lit "bot7") (lit "bot7")
           {| filename := lit "Manual.PDF"; file := [37%N];
              content_type := lit "application/pdf" |}
           {| filename := lit "Manual.PDF"; file := [38%N];
              content_type := lit "application/pdf" |}
           (lit "PDF uploaded successfully")
           (lit "PDF uploaded successfully")
           (lit "bot7") (lit "bot7") (lit "bot7/Manual.PDF"));
    try reflexivity; unfold no_slash; vm_compute; intuition discriminate.
Defined.

Section OcrFacts.

Variable W : Type.
Variable Image : Type.
Variable image_to_string : Image -> Eff W str.

Lemma ocr_loop_each (images : list Image) : forall all_text w,
  ocr_loop W Image image_to_string images all_text w
  = match each image_to_string images w with
    | (inl e, w') => (inl e, w')
    | (inr texts, w') => (inr (all_text ++ filter truthy texts), w')
    end.
Proof.
  induction images as [|image rest IH]; intros all_text w.
  - cbn [ocr_loop each]. unfold ret. cbn [filter]. now rewrite app_nil_r.
  - cbn [ocr_loop each]. unfold bind.
    destruct (image_to_string image w) as [[e|text] w1]; [reflexivity|].
    rewrite IH.
    destruct (each image_to_string rest w1) as [[e|texts] w2];
      [reflexivity|].
    unfold ret. cbn [filter].
    destruct (truthy text); [now rewrite <- app_assoc | reflexivity].
Qed.

End OcrFacts.

(** X22. The text extracted from a PDF is the texts of its pages, read
    in page order, without the empty ones, joined by single newlines:
    an empty page leaves no line, and a failure on any page gives no
    text at all. *)
Theorem extract_text_pages (W Image : Type)
    (get_object : str -> str -> Eff W (list N))
    (convert_from_bytes : list N -> Eff W (list Image))
    (image_to_string : Image -> Eff W str)
    (bucket_name object_name : str) (w : W) :
  extract_text_from_pdf W Image get_object convert_from_bytes
    image_to_string bucket_name object_name w
  = (pdf_bytes <- get_object bucket_name object_name ;;
     images <- convert_from_bytes pdf_bytes ;;
     texts <- each image_to_string images ;;
     ret (join [NL] (filter truthy texts))) w.
Proof.
  unfold extract_text_from_pdf, bind.
  destruct (get_object bucket_name object_name w) as [[e|pdf] w1];
    [reflexivity|].
  destruct (convert_from_bytes pdf w1) as [[e|images] w2]; [reflexivity|].
  rewrite ocr_loop_each.
  destruct (each image_to_string images w2) as [[e|texts] w3]; reflexivity.
Qed.
